(** * AI Shorts Automation API: a shallow embedding of [main.py] and [schemas.py]

    The development follows the layout of the program:

    - [Py]: the Python values the handlers manipulate (documents are [dict]s
      with string keys) and the builtins they call ([str], [repr], truthiness,
      [str.lower], [str.title]);
    - [Exn]: the exceptions of the program and of its libraries, and [str]
      of an exception;
    - [Bson]: the constructor of [bson.ObjectId] from a [str];
    - [Mongo]: the store handle [db], the state-and-exception monad the
      handlers run in, and the two pymongo calls of [main.py] ([find_one],
      [update_one]);
    - [Database]: [create_document] and [get_documents] of the [database]
      module;
    - [VideoJob]: the model of [schemas.py];
    - [CreateJobRequest], [ConnectAccountRequest] and [Main]: the request
      models and the five job and account handlers of [main.py];
    - the theorems.

    Strings are sequences of ASCII characters. *)

From Stdlib Require Import ZArith Ascii String DecimalString.
From Stdlib.Strings Require Import Byte.
From stdpp Require Import gmap strings list fin_maps.

Set Warnings "-register-all".

#[local] Open Scope Z_scope.
#[local] Open Scope list_scope.
#[local] Open Scope stdpp_scope.

(* ===================================================================== *)
(** * Python values and builtins *)
(* ===================================================================== *)

Module Py.

(** A BSON / Python value as it occurs in a document.  [VOid] holds the bytes
    of a [bson.ObjectId]. *)
Inductive value : Type :=
| VNone
| VBool (b : bool)
| VInt (z : Z)
| VStr (s : string)
| VOid (o : list byte)
| VList (l : list value).

(** A Python [dict] with string keys: a stored document, a filter, a response
    body. *)
Abbreviation doc := (gmap string value).

(** ** Characters *)

Definition code (c : ascii) : N := N_of_ascii c.

Definition is_ascii_upper (c : ascii) : bool :=
  ((65 <=? code c) && (code c <=? 90))%N.

Definition is_ascii_lower (c : ascii) : bool :=
  ((97 <=? code c) && (code c <=? 122))%N.

(** [c.isalpha()], the cased characters of ASCII. *)
Definition is_cased (c : ascii) : bool := is_ascii_upper c || is_ascii_lower c.

Definition lower_char (c : ascii) : ascii :=
  if is_ascii_upper c then ascii_of_N (code c + 32) else c.

Definition upper_char (c : ascii) : ascii :=
  if is_ascii_lower c then ascii_of_N (code c - 32) else c.

(** ** [str.lower] and [str.title] *)

Fixpoint lower (s : string) : string :=
  match s with
  | EmptyString => EmptyString
  | String c s' => String (lower_char c) (lower s')
  end.

(** [str.title]: a cased character is upper-cased when the character before
    it is not cased, and lower-cased otherwise. *)
Fixpoint title_from (previous_is_cased : bool) (s : string) : string :=
  match s with
  | EmptyString => EmptyString
  | String c s' =>
      String (if previous_is_cased then lower_char c else upper_char c)
             (title_from (is_cased c) s')
  end.

Definition title (s : string) : string := title_from false s.

(** ** Hexadecimal digits *)

Definition hex_digit (n : N) : ascii :=
  if (n <? 10)%N then ascii_of_N (48 + n) else ascii_of_N (87 + n).

Definition hex_byte (n : N) : string :=
  String (hex_digit (n / 16)) (String (hex_digit (n mod 16)) EmptyString).

(** The value of a hexadecimal digit, either case. *)
Definition hex_value (c : ascii) : option N :=
  let n := code c in
  if ((48 <=? n) && (n <=? 57))%N then Some (n - 48)%N
  else if ((97 <=? n) && (n <=? 102))%N then Some (n - 87)%N
  else if ((65 <=? n) && (n <=? 70))%N then Some (n - 55)%N
  else None.

(** ** [repr] and [str] *)

Fixpoint contains_char (q : ascii) (s : string) : bool :=
  match s with
  | EmptyString => false
  | String c s' => Ascii.eqb c q || contains_char q s'
  end.

Definition single_quote : ascii := ascii_of_N 39.
Definition double_quote : ascii := ascii_of_N 34.
Definition backslash : ascii := ascii_of_N 92.

Definition escape_char (quote c : ascii) : string :=
  let n := code c in
  if Ascii.eqb c quote || Ascii.eqb c backslash then String backslash (String c EmptyString)
  else if (n =? 9)%N then String backslash "t"
  else if (n =? 10)%N then String backslash "n"
  else if (n =? 13)%N then String backslash "r"
  else if ((n <? 32) || (n =? 127))%N then String backslash ("x" +:+ hex_byte n)
  else String c EmptyString.

Fixpoint escape (quote : ascii) (s : string) : string :=
  match s with
  | EmptyString => EmptyString
  | String c s' => escape_char quote c +:+ escape quote s'
  end.

(** [repr(s)] for a [str]: single quotes, unless the text has a single quote
    and no double quote. *)
Definition repr_str (s : string) : string :=
  let quote :=
    if contains_char single_quote s && negb (contains_char double_quote s)
    then double_quote else single_quote in
  String quote (escape quote s +:+ String quote EmptyString).

Definition str_int (z : Z) : string := NilZero.string_of_int (Z.to_int z).

(** [binascii.hexlify(o).decode()] *)
Fixpoint hexlify (o : list byte) : string :=
  match o with
  | [] => EmptyString
  | b :: o' => hex_byte (Byte.to_N b) +:+ hexlify o'
  end.

Fixpoint repr (v : value) : string :=
  match v with
  | VNone => "None"
  | VBool true => "True"
  | VBool false => "False"
  | VInt z => str_int z
  | VStr s => repr_str s
  | VOid o => "ObjectId('" +:+ hexlify o +:+ "')"
  | VList l => "[" +:+ String.concat ", " (map repr l) +:+ "]"
  end.

(** [str(v)] *)
Definition str (v : value) : string :=
  match v with
  | VStr s => s
  | VOid o => hexlify o
  | _ => repr v
  end.

(** ** Truthiness and equality *)

(** [bool(v)] *)
Definition truthy (v : value) : bool :=
  match v with
  | VNone => false
  | VBool b => b
  | VInt z => negb (z =? 0)
  | VStr s => negb (String.eqb s "")
  | VOid _ => true
  | VList l => match l with [] => false | _ => true end
  end.

Fixpoint bytes_eqb (a b : list byte) : bool :=
  match a, b with
  | [], [] => true
  | x :: a', y :: b' => Byte.eqb x y && bytes_eqb a' b'
  | _, _ => false
  end.

Fixpoint value_eqb (v w : value) : bool :=
  match v, w with
  | VNone, VNone => true
  | VBool a, VBool b => Bool.eqb a b
  | VInt a, VInt b => (a =? b)
  | VStr a, VStr b => String.eqb a b
  | VOid a, VOid b => bytes_eqb a b
  | VList a, VList b =>
      (fix all2 (a b : list value) : bool :=
         match a, b with
         | [], [] => true
         | x :: a', y :: b' => value_eqb x y && all2 a' b'
         | _, _ => false
         end) a b
  | _, _ => false
  end.

(** [x in (a, b, ...)] on strings *)
Definition mem (x : string) (l : list string) : bool := existsb (String.eqb x) l.

(** [d.get(k)]: the value at [k], [None] when the key is absent. *)
Definition get (d : doc) (k : string) : value := default VNone (d !! k).

End Py.

Import Py.

(* ===================================================================== *)
(** * Exceptions *)
(* ===================================================================== *)

Module Exn.

(** The exceptions a handler can meet.  [ValidationError], [PyMongoError] and
    [Exception] carry their [str]. *)
Inductive exn : Type :=
| HTTPException (status_code : Z) (detail : string)
| InvalidId (oid : string)
| ValidationError (msg : string)
| TypeError (msg : string)
| KeyError (key : string)
| PyMongoError (msg : string)
| Exception (msg : string).

(** [isinstance(e, HTTPException)] *)
Definition is_HTTPException (e : exn) : bool :=
  match e with HTTPException _ _ => true | _ => false end.

(** [str(e)] *)
Definition str_exn (e : exn) : string :=
  match e with
  | HTTPException status_code detail => str_int status_code +:+ ": " +:+ detail
  | InvalidId oid =>
      repr_str oid +:+
      " is not a valid ObjectId, it must be a 12-byte input or a 24-character hex string"
  | ValidationError msg => msg
  | TypeError msg => msg
  | KeyError key => repr_str key
  | PyMongoError msg => msg
  | Exception msg => msg
  end.

Inductive result (A : Type) : Type :=
| Ok (a : A)
| Raise (e : exn).

Arguments Ok {A} a.
Arguments Raise {A} e.

End Exn.

Import Exn.

(* ===================================================================== *)
(** * bson.ObjectId *)
(* ===================================================================== *)

Module Bson.

(** An [ObjectId] is its bytes ([oid.binary]). *)
Abbreviation ObjectId := (list byte).

(** [Py_ISSPACE] *)
Definition is_space (c : ascii) : bool :=
  let n := code c in ((n =? 32) || ((9 <=? n) && (n <=? 13)))%N.

(** [bytes.fromhex]: pairs of hexadecimal digits, white space allowed
    between the pairs. *)
Fixpoint fromhex (s : string) : option (list byte) :=
  match s with
  | EmptyString => Some []
  | String a s1 =>
      if is_space a then fromhex s1
      else match s1 with
           | EmptyString => None
           | String b s2 =>
               match hex_value a, hex_value b with
               | Some top, Some bot =>
                   match Byte.of_N (16 * top + bot), fromhex s2 with
                   | Some x, Some rest => Some (x :: rest)
                   | _, _ => None
                   end
               | _, _ => None
               end
           end
  end.

(** [ObjectId(oid)] for a [str]: 24 characters that [bytes.fromhex] accepts,
    [InvalidId] otherwise. *)
Definition ObjectId_of_str (oid : string) : result ObjectId :=
  if (String.length oid =? 24)%nat then
    match fromhex oid with
    | Some b => Ok b
    | None => Raise (InvalidId oid)
    end
  else Raise (InvalidId oid).

End Bson.

Import Bson.

(* ===================================================================== *)
(** * The store: pymongo over the handle [db] *)
(* ===================================================================== *)

Module Mongo.

(** The database behind the handle: its collections, in the store's natural
    order, and the outcome of the coming round trips to the server ([None]:
    the call goes through, [Some msg]: it raises a [PyMongoError] whose [str]
    is [msg]; past the end of the list every call goes through). *)
Record Database : Type := mkDatabase {
  collections : gmap string (list doc);
  faults : list (option string)
}.

(** The module global [db] of [database.py]: [None] when no connection was
    configured at start-up. *)
Abbreviation handle := (option Database).

(** A computation over the handle that returns or raises. *)
Definition M (A : Type) : Type := handle -> result A * handle.

Definition ret {A} (a : A) : M A := fun h => (Ok a, h).

Definition raise {A} (e : exn) : M A := fun h => (Raise e, h).

Definition bind {A B} (c : M A) (k : A -> M B) : M B :=
  fun h => match c h with
           | (Ok a, h') => k a h'
           | (Raise e, h') => (Raise e, h')
           end.

(** Lift a pure computation that returns or raises. *)
Definition lift {A} (r : result A) : M A := fun h => (r, h).

(** [db is None] *)
Definition db_is_None : M bool :=
  fun h => (Ok (match h with None => true | Some _ => false end), h).

(** [db[name]] *)
Definition collection (d : Database) (name : string) : list doc :=
  default [] (collections d !! name).

Definition set_collection (d : Database) (name : string) (l : list doc) : Database :=
  mkDatabase (<[name := l]> (collections d)) (faults d).

(** One round trip: subscripting the handle raises [TypeError] when it is
    [None]; otherwise the next scheduled outcome is consumed. *)
Definition round_trip : M Database :=
  fun h => match h with
           | None => (Raise (TypeError "'NoneType' object is not subscriptable"), None)
           | Some d =>
               match faults d with
               | [] => (Ok d, Some d)
               | None :: fs =>
                   let d' := mkDatabase (collections d) fs in (Ok d', Some d')
               | Some msg :: fs =>
                   (Raise (PyMongoError msg), Some (mkDatabase (collections d) fs))
               end
           end.

Definition put (d : Database) : M unit := fun _ => (Ok tt, Some d).

(** A query or update document written as a literal: its items in order. *)
Abbreviation items := (list (string * value)).

(** Equality match of one field: the stored value equals the queried one, or
    is an array that holds it; a missing field matches [None]. *)
Definition field_matches (d : doc) (kv : string * value) : bool :=
  match d !! kv.1 with
  | Some (VList l) => value_eqb (VList l) kv.2 || existsb (fun x => value_eqb x kv.2) l
  | Some w => value_eqb w kv.2
  | None => value_eqb VNone kv.2
  end.

Definition matches (filter : items) (d : doc) : bool :=
  forallb (field_matches d) filter.

(** [$set]: each item is written, in order. *)
Definition apply_set (fields : items) (d : doc) : doc :=
  fold_left (fun acc kv => <[kv.1 := kv.2]> acc) fields d.

(** The first document that satisfies [p] is replaced by its image. *)
Fixpoint update_first (p : doc -> bool) (f : doc -> doc) (l : list doc)
  : option (list doc) :=
  match l with
  | [] => None
  | d :: l' =>
      if p d then Some (f d :: l')
      else option_map (cons d) (update_first p f l')
  end.

(** [db[name].find_one(filter)] *)
Definition find_one (name : string) (filter : items) : M (option doc) :=
  bind round_trip (fun d => ret (List.find (matches filter) (collection d name))).

(** [db[name].update_one(filter, {"$set": fields}, upsert=...)].  [upsert] is
    [None] for the default [upsert=False]; for [upsert=True] it is
    [Some new_id], the [_id] given to the document if one is inserted.  The
    inserted document has the fields of the filter and then those of the
    update. *)
Definition update_one (name : string) (filter fields : items)
    (upsert : option ObjectId) : M unit :=
  bind round_trip (fun d =>
    match update_first (matches filter) (apply_set fields) (collection d name) with
    | Some l' => put (set_collection d name l')
    | None =>
        match upsert with
        | Some new_id =>
            put (set_collection d name
                   (collection d name ++
                    [apply_set (filter ++ fields) {[ "_id" := VOid new_id ]}]))
        | None => ret tt
        end
    end).

End Mongo.

Import Mongo.

Declare Scope py_scope.
Delimit Scope py_scope with py.
Notation "'let*' x ':=' c 'in' k" := (bind c (fun x => k))
  (at level 10, x name, c at level 100, k at level 200) : py_scope.
Notation "c ';;;' k" := (bind c (fun _ => k))
  (at level 100, k at level 200, right associativity) : py_scope.
#[local] Open Scope py_scope.

(** [try: body / except ... as e: handler(e)] *)
Definition try_except {A} (body : M A) (handler : exn -> M A) : M A :=
  fun h => match body h with
           | (Ok a, h') => (Ok a, h')
           | (Raise e, h') => handler e h'
           end.

(** [x or y] on strings, for a [str] and for an [Optional[str]]. *)
Definition str_or (x y : string) : string := if truthy (VStr x) then x else y.

Definition opt_or (x : option string) (y : string) : string :=
  match x with Some s => str_or s y | None => y end.

(** [dict(d)] for the result of [find_one]. *)
Definition dict (d : option doc) : result doc :=
  match d with
  | Some d => Ok d
  | None => Raise (TypeError "'NoneType' object is not iterable")
  end.

(** [d.pop(k)]: the value and the dictionary without the key. *)
Definition pop (d : doc) (k : string) : result (value * doc) :=
  match d !! k with
  | Some v => Ok (v, delete k d)
  | None => Raise (KeyError k)
  end.

(** [Optional[str]] as a value. *)
Definition of_opt (x : option string) : value :=
  match x with Some s => VStr s | None => VNone end.

(* ===================================================================== *)
(** * What the program takes from outside the repository's sources *)
(* ===================================================================== *)

(** Three things the handlers depend on are fixed outside [main.py] and
    [schemas.py]: pydantic's [HttpUrl] validator (the validated URL, [None]
    when the input is refused), pydantic's rendering of a [ValidationError]
    (from the refused fields and their inputs), and the text of the exception
    of the [database] module when no store is configured. *)
Class External : Type := {
  HttpUrl : string -> option string;
  ValidationError_str : list (string * string) -> string;
  unavailable : string
}.

(* ===================================================================== *)
(** * The [database] module *)
(* ===================================================================== *)

Module Gateway.
Section Gateway.
Context `{External}.

(** Modelled from the spec: [database.create_document], which is not among
    the sources.  "insert(collection, record) -> identifier", and "fails with
    a store-unavailable condition if no connection was established": the
    record is stored under the identifier [new_id] the store assigns, after
    the documents already there, and the identifier is returned as a
    string. *)
Definition create_document (collection_name : string) (data : doc)
    (new_id : ObjectId) : M string :=
  let* none := db_is_None in
  if (none : bool) then raise (Exception unavailable)
  else
    let* d := round_trip in
    put (set_collection d collection_name
           (collection d collection_name ++ [<["_id" := VOid new_id]> data])) ;;;
    ret (str (VOid new_id)).

(** Modelled from the spec: [database.get_documents], which is not among the
    sources.  "query(collection, limit) -> sequence of records", up to
    [limit] of them in the store's order, failing like [create_document]
    without a connection. *)
Definition get_documents (collection_name : string) (limit : nat) : M (list doc) :=
  let* none := db_is_None in
  if (none : bool) then raise (Exception unavailable)
  else
    let* d := round_trip in
    ret (take limit (collection d collection_name)).

End Gateway.
End Gateway.

Import Gateway.

(* ===================================================================== *)
(** * schemas.py *)
(* ===================================================================== *)

Module VideoJob.

Record t : Type := mk {
  title : option string;
  subreddit : option string;
  reddit_post_url : option string;
  keyword : option string;
  voice : string;
  aspect_ratio : string;
  include_captions : bool;
  include_broll : bool;
  autopost_youtube : bool;
  autopost_tiktok : bool;
  autopost_instagram : bool;
  status : string;
  error : option string;
  result_video_url : option string;
  platforms_posted : list string
}.

Definition voices : list string :=
  ["female-soft"; "female-energetic"; "male-calm"; "male-dramatic"].
Definition aspect_ratios : list string := ["9:16"; "1:1"; "16:9"].
Definition statuses : list string := ["queued"; "processing"; "completed"; "failed"].

(** The check of a [Literal[...]] field: the refused (field, input) pair. *)
Definition check_literal (field x : string) (allowed : list string)
  : list (string * string) :=
  if mem x allowed then [] else [(field, x)].

Section Validation.
Context `{External}.

Definition check_url (field : string) (x : option string) : list (string * string) :=
  match x with
  | None => []
  | Some u => match HttpUrl u with Some _ => [] | None => [(field, u)] end
  end.

(** [VideoJob(title=..., ..., status=...)] as [create_job] calls it: the
    fields that are not passed take their defaults; the fields are checked
    in the order of the class and all refusals are reported together. *)
Definition new (title subreddit reddit_post_url keyword : option string)
    (voice aspect_ratio : string)
    (include_captions include_broll : bool)
    (autopost_youtube autopost_tiktok autopost_instagram : bool)
    (status : string) : result t :=
  match check_url "reddit_post_url" reddit_post_url ++
        check_literal "voice" voice voices ++
        check_literal "aspect_ratio" aspect_ratio aspect_ratios ++
        check_literal "status" status statuses with
  | [] =>
      Ok (mk title subreddit (reddit_post_url ≫= HttpUrl) keyword
             voice aspect_ratio include_captions include_broll
             autopost_youtube autopost_tiktok autopost_instagram
             status None None [])
  | errors => Raise (ValidationError (ValidationError_str errors))
  end.

End Validation.

(** Modelled from the spec: the document [create_document] stores for a
    [VideoJob] record, which is decided in the [database] module: the fields
    of the data model of the spec under their names, an unset optional field
    as [None]. *)
Definition to_doc (job : t) : doc :=
  apply_set
    [ ("title", of_opt (title job));
      ("subreddit", of_opt (subreddit job));
      ("reddit_post_url", of_opt (reddit_post_url job));
      ("keyword", of_opt (keyword job));
      ("voice", VStr (voice job));
      ("aspect_ratio", VStr (aspect_ratio job));
      ("include_captions", VBool (include_captions job));
      ("include_broll", VBool (include_broll job));
      ("autopost_youtube", VBool (autopost_youtube job));
      ("autopost_tiktok", VBool (autopost_tiktok job));
      ("autopost_instagram", VBool (autopost_instagram job));
      ("status", VStr (status job));
      ("error", of_opt (error job));
      ("result_video_url", of_opt (result_video_url job));
      ("platforms_posted", VList (map VStr (platforms_posted job))) ]
    ∅.

End VideoJob.

(* ===================================================================== *)
(** * main.py: the request models *)
(* ===================================================================== *)

Module CreateJobRequest.

Record t : Type := mk {
  title : option string;
  subreddit : option string;
  reddit_post_url : option string;
  keyword : option string;
  voice : option string;
  aspect_ratio : option string;
  include_captions : option bool;
  include_broll : option bool;
  autopost_youtube : option bool;
  autopost_tiktok : option bool;
  autopost_instagram : option bool
}.

(** The request with no field set: every field at the default of the class. *)
Definition empty : t :=
  mk None None None None None None (Some true) (Some true)
     (Some false) (Some false) (Some false).

End CreateJobRequest.

Module ConnectAccountRequest.

Record t : Type := mk {
  platform : string;
  account_name : option string
}.

End ConnectAccountRequest.

(* ===================================================================== *)
(** * main.py: the handlers *)
(* ===================================================================== *)

Module Main.
Section Handlers.
Context `{External}.

(** [except Exception as e: raise HTTPException(status_code=500, detail=str(e))] *)
Definition internal_error {A} (e : exn) : M A :=
  raise (HTTPException 500 (str_exn e)).

(** [except HTTPException: raise], then the clause above. *)
Definition reraise_or_internal_error {A} (e : exn) : M A :=
  if is_HTTPException e then raise e else internal_error e.

(** The body of the loop of [list_jobs] and [list_accounts]: the copy of [d]
    has [_id] exposed as [id], and is appended to [out]. *)
Definition exposed (d : doc) : doc :=
  match d !! "_id" with
  | Some _id => delete "_id" (<["id" := VStr (str _id)]> d)
  | None => d
  end.

Definition expose_id (out : list doc) (d : doc) : list doc := out ++ [exposed d].

(** [GET /jobs]: the [try] block, then the handler.  The result stands for
    [{"items": out}]. *)
Definition list_jobs_try : M (list doc) :=
  let* docs := get_documents "videojob" 100 in
  let out := fold_left expose_id docs [] in
  ret out.

Definition list_jobs : M (list doc) := try_except list_jobs_try internal_error.

(** [bool(x)] and [True if x is None else x] on an [Optional[bool]]. *)
Definition bool_of (x : option bool) : bool := default false x.
Definition true_if_None (x : option bool) : bool := default true x.

(** The call [VideoJob(title=payload.title, ..., status="queued")] of
    [create_job]. *)
Definition job_of (payload : CreateJobRequest.t) : result VideoJob.t :=
  VideoJob.new
    (CreateJobRequest.title payload)
    (CreateJobRequest.subreddit payload)
    (CreateJobRequest.reddit_post_url payload)
    (CreateJobRequest.keyword payload)
    (opt_or (CreateJobRequest.voice payload) "female-soft")
    (opt_or (CreateJobRequest.aspect_ratio payload) "9:16")
    (true_if_None (CreateJobRequest.include_captions payload))
    (true_if_None (CreateJobRequest.include_broll payload))
    (bool_of (CreateJobRequest.autopost_youtube payload))
    (bool_of (CreateJobRequest.autopost_tiktok payload))
    (bool_of (CreateJobRequest.autopost_instagram payload))
    "queued".

(** [POST /jobs]; [new_id] is the identifier the store assigns. *)
Definition create_job_try (payload : CreateJobRequest.t) (new_id : ObjectId) : M doc :=
  let* job := lift (job_of payload) in
  let* inserted_id := create_document "videojob" (VideoJob.to_doc job) new_id in
  ret {[ "id" := VStr inserted_id; "status" := VStr (VideoJob.status job) ]}.

Definition create_job (payload : CreateJobRequest.t) (new_id : ObjectId) : M doc :=
  try_except (create_job_try payload new_id) internal_error.

Definition result_url : string := "https://samplelib.com/lib/preview/mp4/sample-5s.mp4".

(** The list [process_job] builds from the three flags of [job]. *)
Definition platforms_of (job : doc) : list string :=
  let platforms_posted := [] in
  let platforms_posted :=
    if truthy (get job "autopost_youtube")
    then platforms_posted ++ ["youtube"] else platforms_posted in
  let platforms_posted :=
    if truthy (get job "autopost_tiktok")
    then platforms_posted ++ ["tiktok"] else platforms_posted in
  let platforms_posted :=
    if truthy (get job "autopost_instagram")
    then platforms_posted ++ ["instagram"] else platforms_posted in
  platforms_posted.

(** [not job] for the result of [find_one]: [None] or an empty [dict]. *)
Definition not_ (job : option doc) : bool :=
  match job with
  | None => true
  | Some d => (size d =? 0)%nat
  end.

(** [updated_out["id"] = str(updated_out.pop("_id"))] *)
Definition pop_id (out : doc) : result doc :=
  match pop out "_id" with
  | Ok popped => Ok (<["id" := VStr (str popped.1)]> popped.2)
  | Raise e => Raise e
  end.

(** [POST /jobs/{job_id}/process] *)
Definition process_job_try (job_id : string) : M doc :=
  let* none := db_is_None in
  if (none : bool) then raise (HTTPException 500 "Database not available")
  else
    let* oid := lift (ObjectId_of_str job_id) in
    let* job := find_one "videojob" [("_id", VOid oid)] in
    if not_ job then raise (HTTPException 404 "Job not found")
    else
      let job := default (∅ : doc) job in
      update_one "videojob" [("_id", VOid oid)]
        [("status", VStr "processing")] None ;;;
      let platforms_posted := platforms_of job in
      update_one "videojob" [("_id", VOid oid)]
        [("status", VStr "completed");
         ("result_video_url", VStr result_url);
         ("platforms_posted", VList (map VStr platforms_posted))] None ;;;
      let* updated := find_one "videojob" [("_id", VOid oid)] in
      let* updated_out := lift (dict updated) in
      let* updated_out := lift (pop_id updated_out) in
      ret updated_out.

Definition process_job (job_id : string) : M doc :=
  try_except (process_job_try job_id) reraise_or_internal_error.

(** [GET /accounts]; the result stands for [{"items": out}]. *)
Definition list_accounts_try : M (list doc) :=
  let* docs := get_documents "account" 50 in
  let out := fold_left expose_id docs [] in
  ret out.

Definition list_accounts : M (list doc) :=
  try_except list_accounts_try internal_error.

Definition platforms : list string := ["youtube"; "tiktok"; "instagram"].

(** [POST /accounts/connect]; [new_id] is the identifier the store assigns if
    the upsert inserts. *)
Definition connect_account_try (payload : ConnectAccountRequest.t)
    (new_id : ObjectId) : M doc :=
  let* none := db_is_None in
  if (none : bool) then raise (HTTPException 500 "Database not available")
  else
    let platform := lower (str_or (ConnectAccountRequest.platform payload) "") in
    if negb (mem platform platforms)
    then raise (HTTPException 400 "Invalid platform")
    else
      update_one "account" [("platform", VStr platform)]
        [("platform", VStr platform);
         ("account_name",
          VStr (opt_or (ConnectAccountRequest.account_name payload) (title platform)));
         ("connected", VBool true)]
        (Some new_id) ;;;
      let* doc := find_one "account" [("platform", VStr platform)] in
      let* out := lift (dict doc) in
      let* out := lift (pop_id out) in
      ret out.

Definition connect_account (payload : ConnectAccountRequest.t)
    (new_id : ObjectId) : M doc :=
  try_except (connect_account_try payload new_id) reraise_or_internal_error.

(** ** The states the API can reach *)

(** The documents of the two collections. *)
Definition jobs (d : Database) : list doc := collection d "videojob".
Definition accounts (d : Database) : list doc := collection d "account".

(** The states reached from an empty database whose coming round trips have
    the outcomes [fs], by any sequence of requests to the five handlers, each
    with any arguments and whatever its response. *)
Inductive reachable (fs : list (option string)) : Database -> Prop :=
| reach_fresh : reachable fs (mkDatabase ∅ fs)
| reach_list_jobs d r d' :
    reachable fs d -> list_jobs (Some d) = (r, Some d') -> reachable fs d'
| reach_create_job d payload new_id r d' :
    reachable fs d -> create_job payload new_id (Some d) = (r, Some d') ->
    reachable fs d'
| reach_process_job d job_id r d' :
    reachable fs d -> process_job job_id (Some d) = (r, Some d') ->
    reachable fs d'
| reach_list_accounts d r d' :
    reachable fs d -> list_accounts (Some d) = (r, Some d') -> reachable fs d'
| reach_connect_account d payload new_id r d' :
    reachable fs d -> connect_account payload new_id (Some d) = (r, Some d') ->
    reachable fs d'.

End Handlers.
End Main.

Import Main.


(* ===================================================================== *)
(** * main.py: the diagnostic endpoint *)
(* ===================================================================== *)

Module Diagnostics.

(** What [test_database] reads besides the store: the two variables of the
    process environment ([os.getenv], [None] when unset) and [db.name], the
    name the handle was opened with. *)
Record Environ : Type := mkEnviron {
  DATABASE_URL : option string;
  DATABASE_NAME : option string;
  name : string
}.

(** [bool(os.getenv(k))] *)
Definition getenv_set (x : option string) : bool :=
  match x with
  | Some s => truthy (VStr s)
  | None => false
  end.

(** [s[:n]] *)
Definition prefix (n : nat) (s : string) : string := String.substring 0 n s.

(** [db.list_collection_names()]: one round trip; the names of the
    collections that exist. *)
Definition list_collection_names : M (list string) :=
  let* d := round_trip in
  ret (map fst (map_to_list (collections d))).

(** A block of [test_database]: it runs over the handle and updates the
    local dictionary [response], which keeps the updates made before an
    exception. *)
Definition T (A : Type) : Type := doc -> handle -> result A * doc * handle.

Definition tret {A} (a : A) : T A := fun response h => (Ok a, response, h).

Definition tbind {A B} (c : T A) (k : A -> T B) : T B :=
  fun response h =>
    match c response h with
    | (Ok a, response', h') => k a response' h'
    | (Raise e, response', h') => (Raise e, response', h')
    end.

(** [response[k] = v] *)
Definition set_item (k : string) (v : value) : T unit :=
  fun response h => (Ok tt, <[k := v]> response, h).

(** A call to the store inside a block. *)
Definition call {A} (c : M A) : T A :=
  fun response h => let '(r, h') := c h in (r, response, h').

Definition ttry {A} (body : T A) (handler : exn -> T A) : T A :=
  fun response h =>
    match body response h with
    | (Ok a, response', h') => (Ok a, response', h')
    | (Raise e, response', h') => handler e response' h'
    end.

Notation "c ';;;;' k" := (tbind c (fun _ => k))
  (at level 100, k at level 200, right associativity).

(** The inner [try] of [test_database]. *)
Definition check_collections : T unit :=
  ttry
    (tbind (call list_collection_names) (fun collections =>
     set_item "collections" (VList (map VStr (take 10 collections))) ;;;;
     set_item "database" (VStr "✅ Connected & Working")))
    (fun e =>
     set_item "database"
       (VStr ("⚠️  Connected but Error: " +:+ prefix 50 (str_exn e)))).

(** The outer [try] of [test_database]. *)
Definition check_database (environ : Environ) : T unit :=
  ttry
    (tbind (call db_is_None) (fun none =>
     if (none : bool)
     then set_item "database" (VStr "⚠️  Available but not initialized")
     else
       set_item "database" (VStr "✅ Available") ;;;;
       set_item "database_url" (VStr "✅ Configured") ;;;;
       set_item "database_name" (VStr (name environ)) ;;;;
       set_item "connection_status" (VStr "Connected") ;;;;
       check_collections))
    (fun e =>
     set_item "database" (VStr ("❌ Error: " +:+ prefix 50 (str_exn e)))).

(** [GET /test]: the response and the handle after the request. *)
Definition test_database (environ : Environ) (h : handle) : doc * handle :=
  let response : doc :=
    {[ "backend" := VStr "✅ Running";
       "database" := VStr "❌ Not Available";
       "database_url" := VNone;
       "database_name" := VNone;
       "connection_status" := VStr "Not Connected";
       "collections" := VList [] ]} in
  let '(_, response, h') :=
    (check_database environ ;;;;
     set_item "database_url"
       (VStr (if getenv_set (DATABASE_URL environ) then "✅ Set" else "❌ Not Set")) ;;;;
     set_item "database_name"
       (VStr (if getenv_set (DATABASE_NAME environ) then "✅ Set" else "❌ Not Set")))
      response h in
  (response, h').

End Diagnostics.

Import Diagnostics.
(* ===================================================================== *)
(** * The vocabulary of the specifications *)
(* ===================================================================== *)

(** [hoare P c Q E]: from a configured store that satisfies [P], the
    computation [c] either returns [a] in a store that satisfies [Q a], or
    raises [e] in a store that satisfies [E e]; the handle stays configured. *)
Definition hoare {A} (P : Database -> Prop) (c : M A)
    (Q : A -> Database -> Prop) (E : exn -> Database -> Prop) : Prop :=
  forall d, P d ->
    match c (Some d) with
    | (Ok a, Some d') => Q a d'
    | (Raise e, Some d') => E e d'
    | (_, None) => False
    end.

(** [P] survives the consumption of a scheduled outcome. *)
Definition closed (P : Database -> Prop) : Prop :=
  forall d o fs, P d -> faults d = o :: fs -> P (mkDatabase (collections d) fs).

(** [E] holds when a round trip from a state of [P] fails. *)
Definition faulty (P : Database -> Prop) (E : exn -> Database -> Prop) : Prop :=
  forall d msg fs, P d -> faults d = Some msg :: fs ->
    E (PyMongoError msg) (mkDatabase (collections d) fs).

(** The assertion of the handler specifications: the collections are [c], and
    under [q] no outcome is scheduled (every round trip goes through). *)
Definition st (q : Prop) (c : gmap string (list doc)) (d : Database) : Prop :=
  collections d = c /\ (q -> faults d = []).

(** [db[name]] read in the collections. *)
Definition coll (c : gmap string (list doc)) (name : string) : list doc :=
  default [] (c !! name).


(** The collections [update_one] leaves when its round trip goes through. *)
Definition update_one_colls (name : string) (filter fields : items)
    (upsert : option ObjectId) (c : gmap string (list doc))
  : gmap string (list doc) :=
  match update_first (matches filter) (apply_set fields) (coll c name) with
  | Some l' => <[name := l']> c
  | None =>
      match upsert with
      | Some new_id =>
          <[name := coll c name ++
                    [apply_set (filter ++ fields) {[ "_id" := VOid new_id ]}]]> c
      | None => c
      end
  end.

(** The filter and the two updates of [process_job], and the document they
    make of [job]. *)
Definition job_filter (oid : ObjectId) : items := [("_id", VOid oid)].

Definition processing_fields : items := [("status", VStr "processing")].

Definition completed_fields (job : doc) : items :=
  [("status", VStr "completed");
   ("result_video_url", VStr result_url);
   ("platforms_posted", VList (map VStr (platforms_of job)))].

Definition processed (job : doc) : doc :=
  apply_set (completed_fields job) (apply_set processing_fields job).

(** The collections in which a failed round trip can leave [process_job]:
    untouched, or with the job found under [oid] at one of its two updates. *)
Inductive process_partial (c0 : gmap string (list doc)) (oid : ObjectId)
  : gmap string (list doc) -> Prop :=
| partial_untouched : process_partial c0 oid c0
| partial_updated l1 job l2 job' :
    coll c0 "videojob" = l1 ++ job :: l2 ->
    Forall (fun y => matches (job_filter oid) y = false) l1 ->
    matches (job_filter oid) job = true ->
    job' = apply_set processing_fields job \/ job' = processed job ->
    process_partial c0 oid (<["videojob" := l1 ++ job' :: l2]> c0).

(** How the [try] block of [process_job] fails from the collections [c0]. *)
Inductive process_failure (q : Prop) (c0 : gmap string (list doc))
    (job_id : string) : exn -> Database -> Prop :=
| failure_invalid_id d :
    ObjectId_of_str job_id = Raise (InvalidId job_id) ->
    st q c0 d ->
    process_failure q c0 job_id (InvalidId job_id) d
| failure_not_found oid d :
    ObjectId_of_str job_id = Ok oid ->
    List.find (matches (job_filter oid)) (coll c0 "videojob") = None ->
    st q c0 d ->
    process_failure q c0 job_id (HTTPException 404 "Job not found") d
| failure_store oid msg c' d :
    ObjectId_of_str job_id = Ok oid ->
    ~ q -> process_partial c0 oid c' -> st q c' d ->
    process_failure q c0 job_id (PyMongoError msg) d.

(** What the [try] block of [process_job] returns from the collections [c0]. *)
Inductive process_success (q : Prop) (c0 : gmap string (list doc))
    (job_id : string) : doc -> Database -> Prop :=
| success_processed oid l1 job l2 v d :
    ObjectId_of_str job_id = Ok oid ->
    coll c0 "videojob" = l1 ++ job :: l2 ->
    Forall (fun y => matches (job_filter oid) y = false) l1 ->
    matches (job_filter oid) job = true ->
    job !! "_id" = Some v ->
    st q (<["videojob" := l1 ++ processed job :: l2]> c0) d ->
    process_success q c0 job_id
      (<["id" := VStr (str v)]> (delete "_id" (processed job))) d.

(** The platform [connect_account] validates and stores, its filter, its
    update, and the document an upsert inserts. *)
Definition platform_of (payload : ConnectAccountRequest.t) : string :=
  lower (str_or (ConnectAccountRequest.platform payload) "").

Definition account_filter (platform : string) : items :=
  [("platform", VStr platform)].

Definition account_fields (payload : ConnectAccountRequest.t) : items :=
  [("platform", VStr (platform_of payload));
   ("account_name",
    VStr (opt_or (ConnectAccountRequest.account_name payload)
                 (title (platform_of payload))));
   ("connected", VBool true)].

Definition connected (payload : ConnectAccountRequest.t) (a : doc) : doc :=
  apply_set (account_fields payload) a.

Definition inserted_account (payload : ConnectAccountRequest.t)
    (new_id : ObjectId) : doc :=
  apply_set (account_filter (platform_of payload) ++ account_fields payload)
    {[ "_id" := VOid new_id ]}.

(** The collections after the upsert of [connect_account], with the document
    it wrote: the first account of the platform updated in place, or a new
    account after the others when the platform has none. *)
Inductive upserted (c0 : gmap string (list doc))
    (payload : ConnectAccountRequest.t) (new_id : ObjectId)
  : gmap string (list doc) -> doc -> Prop :=
| upserted_update l1 a l2 :
    coll c0 "account" = l1 ++ a :: l2 ->
    Forall (fun y => matches (account_filter (platform_of payload)) y = false) l1 ->
    matches (account_filter (platform_of payload)) a = true ->
    upserted c0 payload new_id
      (<["account" := l1 ++ connected payload a :: l2]> c0) (connected payload a)
| upserted_insert :
    Forall (fun y => matches (account_filter (platform_of payload)) y = false)
      (coll c0 "account") ->
    upserted c0 payload new_id
      (<["account" := coll c0 "account" ++ [inserted_account payload new_id]]> c0)
      (inserted_account payload new_id).

Inductive connect_success (q : Prop) (c0 : gmap string (list doc))
    (payload : ConnectAccountRequest.t) (new_id : ObjectId)
  : doc -> Database -> Prop :=
| success_connected c' a v d :
    mem (platform_of payload) platforms = true ->
    upserted c0 payload new_id c' a ->
    a !! "_id" = Some v ->
    st q c' d ->
    connect_success q c0 payload new_id
      (<["id" := VStr (str v)]> (delete "_id" a)) d.

Inductive connect_failure (q : Prop) (c0 : gmap string (list doc))
    (payload : ConnectAccountRequest.t) (new_id : ObjectId)
  : exn -> Database -> Prop :=
| failure_invalid_platform d :
    mem (platform_of payload) platforms = false ->
    st q c0 d ->
    connect_failure q c0 payload new_id (HTTPException 400 "Invalid platform") d
| failure_connect_store msg c' d :
    mem (platform_of payload) platforms = true ->
    ~ q -> c' = c0 \/ (exists a, upserted c0 payload new_id c' a) -> st q c' d ->
    connect_failure q c0 payload new_id (PyMongoError msg) d
| failure_no_id c' a d :
    mem (platform_of payload) platforms = true ->
    upserted c0 payload new_id c' a ->
    a !! "_id" = None ->
    st q c' d ->
    connect_failure q c0 payload new_id (KeyError "_id") d.

Section CreateSpec.
Context `{External}.

(** What the [try] block of [create_job] returns, and how it fails. *)
Inductive create_success (q : Prop) (c0 : gmap string (list doc))
    (payload : CreateJobRequest.t) (new_id : ObjectId)
  : doc -> Database -> Prop :=
| success_created job d :
    job_of payload = Ok job ->
    st q (<["videojob" := coll c0 "videojob" ++
                          [<["_id" := VOid new_id]> (VideoJob.to_doc job)]]> c0) d ->
    create_success q c0 payload new_id
      {[ "id" := VStr (hexlify new_id); "status" := VStr (VideoJob.status job) ]} d.

Inductive create_failure (q : Prop) (c0 : gmap string (list doc))
    (payload : CreateJobRequest.t) : exn -> Database -> Prop :=
| failure_validation e d :
    job_of payload = Raise e -> st q c0 d ->
    create_failure q c0 payload e d
| failure_create_store job msg d :
    job_of payload = Ok job -> ~ q -> st q c0 d ->
    create_failure q c0 payload (PyMongoError msg) d.

End CreateSpec.

(** How the [try] block of a listing fails. *)
Definition list_failure (q : Prop) (c0 : gmap string (list doc))
    (e : exn) (d : Database) : Prop :=
  exists msg, e = PyMongoError msg /\ ~ q /\ st q c0 d.

(** ** The invariant of the reachable states *)

(** The document has a store-assigned identifier. *)
Definition has_id (d : doc) : Prop := exists o, d !! "_id" = Some (VOid o).

(** A job: identified, [error] unset, and a status other than [failed]. *)
Definition job_ok (j : doc) : Prop :=
  has_id j /\ get j "error" = VNone /\
  In (get j "status") [VStr "queued"; VStr "processing"; VStr "completed"].

(** A job between two requests that went through. *)
Definition job_settled (j : doc) : Prop :=
  get j "status" = VStr "queued" \/ get j "status" = VStr "completed".

(** An account: identified, for one of the three platforms. *)
Definition account_ok (a : doc) : Prop :=
  has_id a /\ exists p, a !! "platform" = Some (VStr p) /\ In p platforms.

(** No two accounts have the same [platform]. *)
Definition one_per_platform (l : list doc) : Prop :=
  NoDup (map (fun a : doc => a !! "platform") l).

Definition invariant (c : gmap string (list doc)) : Prop :=
  Forall job_ok (coll c "videojob") /\
  Forall account_ok (coll c "account") /\
  one_per_platform (coll c "account").


(** [s] spells [p] with some of its lower-case letters in upper case. *)
Inductive spelling : string -> string -> Prop :=
| spelling_nil : spelling EmptyString EmptyString
| spelling_same c s p : spelling s p -> spelling (String c s) (String c p)
| spelling_upper c s p :
    is_ascii_lower c = true -> spelling s p ->
    spelling (String (upper_char c) s) (String c p).

(** The handler [handler] surfaces what its [try] block [body] does: a result
    is returned as it is, an [HTTPException] is raised again, and any other
    exception becomes a 500 whose detail is its [str]. *)
Definition surfaces {A} (body handler : M A) : Prop :=
  forall h,
    match body h with
    | (Ok a, h') => handler h = (Ok a, h')
    | (Raise e, h') =>
        handler h =
          (Raise (if is_HTTPException e then e
                  else HTTPException 500 (str_exn e)), h')
    end.

(** ** Sample data *)

(** An instance of what is outside the sources, an identifier, and a store
    with one job that asks for youtube and instagram. *)
Definition sample_external : External :=
  {| HttpUrl := fun u => Some u;
     ValidationError_str := fun _ => "1 validation error for VideoJob";
     unavailable := "Database not available" |}.

Definition sample_id : ObjectId :=
  [x00; x01; x02; x03; x04; x05; x06; xa7; x08; x09; x0a; xff].

Definition sample_job : doc :=
  <["_id" := VOid sample_id]>
    (VideoJob.to_doc
       (VideoJob.mk None None None None "female-soft" "9:16" true true
          true false true "queued" None None [])).

Definition sample_store : Database :=
  mkDatabase {[ "videojob" := [sample_job] ]} [].

Definition empty_store : Database := mkDatabase ∅ [].

(** The store after one [POST /jobs] with no field set. *)
Definition created_store : Database :=
  default empty_store
    (@create_job sample_external CreateJobRequest.empty sample_id
       (Some empty_store)).2.

(** Lookups through the literal updates of the handlers. *)
Ltac lookups :=
  repeat first
    [ rewrite lookup_insert_eq
    | rewrite lookup_insert_ne by discriminate
    | rewrite lookup_delete_eq
    | rewrite lookup_delete_ne by discriminate
    | rewrite lookup_empty ].

(* ===================================================================== *)
(** * Facts about the builtins *)
(* ===================================================================== *)

Section Builtins.

Lemma bytes_eqb_refl (o : list byte) : bytes_eqb o o = true.
Proof.
  induction o as [|b o IH]; [reflexivity|].
  cbn. rewrite IH, Bool.andb_true_r. now apply Byte.byte_dec_lb.
Qed.

Lemma bytes_eqb_eq (a b : list byte) : bytes_eqb a b = true -> a = b.
Proof.
  revert b. induction a as [|x a IH]; intros [|y b]; cbn; try discriminate; auto.
  intros [Hx Hab]%andb_prop. f_equal; [now apply Byte.byte_dec_bl | now apply IH].
Qed.

Lemma mem_In (x : string) (l : list string) : mem x l = true <-> In x l.
Proof.
  unfold mem. rewrite existsb_exists. split.
  - intros (y & Hy & Heq). apply String.eqb_eq in Heq. now subst.
  - intros Hx. exists x. split; [assumption | apply String.eqb_refl].
Qed.

(** [hexlify] and [fromhex] are inverse on any bytes. *)
Lemma fromhex_hex_byte (b : byte) (s : string) :
  fromhex (hex_byte (Byte.to_N b) +:+ s) =
  match fromhex s with Some rest => Some (b :: rest) | None => None end.
Proof. destruct b; reflexivity. Qed.

Lemma fromhex_hexlify (o : list byte) : fromhex (hexlify o) = Some o.
Proof.
  induction o as [|b o IH]; [reflexivity|].
  change (hexlify (b :: o)) with (hex_byte (Byte.to_N b) +:+ hexlify o).
  now rewrite fromhex_hex_byte, IH.
Qed.

Lemma length_hexlify (o : list byte) :
  String.length (hexlify o) = (2 * List.length o)%nat.
Proof.
  induction o as [|b o IH]; [reflexivity|].
  change (String.length (hexlify (b :: o)))
    with (S (S (String.length (hexlify o)))).
  rewrite IH. cbn [List.length]. lia.
Qed.

(** The identifier printed by [str] is read back by [ObjectId]. *)
Lemma ObjectId_of_str_hexlify (o : ObjectId) :
  List.length o = 12%nat -> ObjectId_of_str (hexlify o) = Ok o.
Proof.
  intros Hlen. unfold ObjectId_of_str.
  rewrite length_hexlify, Hlen. cbn [Nat.mul Nat.add Nat.eqb].
  now rewrite fromhex_hexlify.
Qed.

End Builtins.

(* ===================================================================== *)
(** * The rules of the program logic *)
(* ===================================================================== *)

Section Logic.
Context {A B : Type}.
Implicit Types (P : Database -> Prop) (E : exn -> Database -> Prop).

Lemma hoare_ret P (a : A) (Q : A -> Database -> Prop) E :
  (forall d, P d -> Q a d) -> hoare P (ret a) Q E.
Proof. intros HQ d HP. cbn. auto. Qed.

Lemma hoare_raise P (e : exn) (Q : A -> Database -> Prop) E :
  (forall d, P d -> E e d) -> hoare P (raise e) Q E.
Proof. intros HE d HP. cbn. auto. Qed.

Lemma hoare_lift P (r : result A) (Q : A -> Database -> Prop) E :
  (forall d, P d -> match r with Ok a => Q a d | Raise e => E e d end) ->
  hoare P (lift r) Q E.
Proof. intros Hr d HP. specialize (Hr d HP). unfold lift. now destruct r. Qed.

Lemma hoare_bind P (c : M A) (k : A -> M B) (Q1 : A -> Database -> Prop)
    (Q : B -> Database -> Prop) E :
  hoare P c Q1 E -> (forall a, hoare (Q1 a) (k a) Q E) -> hoare P (bind c k) Q E.
Proof.
  intros Hc Hk d HP. specialize (Hc d HP). unfold bind.
  destruct (c (Some d)) as [[a|e] [d1|]]; try contradiction; auto.
  now apply Hk.
Qed.

Lemma hoare_try_except P (body : M A) (handler : exn -> M A)
    (Q : A -> Database -> Prop) (E1 : exn -> Database -> Prop) E :
  hoare P body Q E1 -> (forall e, hoare (E1 e) (handler e) Q E) ->
  hoare P (try_except body handler) Q E.
Proof.
  intros Hb Hh d HP. specialize (Hb d HP). unfold try_except.
  destruct (body (Some d)) as [[a|e] [d1|]]; try contradiction; auto.
  now apply Hh.
Qed.

Lemma hoare_weaken P P' (c : M A) (Q Q' : A -> Database -> Prop) E E' :
  hoare P' c Q' E' ->
  (forall d, P d -> P' d) ->
  (forall a d, Q' a d -> Q a d) ->
  (forall e d, E' e d -> E e d) ->
  hoare P c Q E.
Proof.
  intros Hc HP HQ HE d Hd. specialize (Hc d (HP d Hd)).
  destruct (c (Some d)) as [[a|e] [d1|]]; auto.
Qed.

Lemma hoare_pure (phi : Prop) P (c : M A) (Q : A -> Database -> Prop) E :
  (phi -> hoare P c Q E) -> hoare (fun d => phi /\ P d) c Q E.
Proof. intros Hc d [Hphi HP]. now apply Hc. Qed.

Lemma hoare_bind_lift P (r : result A) (k : A -> M B)
    (Q : B -> Database -> Prop) E :
  match r with
  | Ok a => hoare P (k a) Q E
  | Raise e => forall d, P d -> E e d
  end ->
  hoare P (bind (lift r) k) Q E.
Proof.
  destruct r as [a|e]; intros Hr d HP.
  - exact (Hr d HP).
  - cbn. auto.
Qed.

End Logic.

Section Primitives.
Implicit Types (P : Database -> Prop) (E : exn -> Database -> Prop).

Lemma round_trip_cases (d : Database) :
  (faults d = [] /\ round_trip (Some d) = (Ok d, Some d)) \/
  (exists fs, faults d = None :: fs /\
     round_trip (Some d) =
       (Ok (mkDatabase (collections d) fs), Some (mkDatabase (collections d) fs))) \/
  (exists msg fs, faults d = Some msg :: fs /\
     round_trip (Some d) =
       (Raise (PyMongoError msg), Some (mkDatabase (collections d) fs))).
Proof.
  unfold round_trip. destruct (faults d) as [|[msg|] fs]; eauto 6.
Qed.

Lemma hoare_round_trip P E :
  closed P -> faulty P E ->
  hoare P round_trip (fun d1 d' => d1 = d' /\ P d') E.
Proof.
  intros Hcl Hf d HP.
  destruct (round_trip_cases d) as [[_ ->]|[(fs & Hfs & ->)|(msg & fs & Hfs & ->)]];
    eauto.
Qed.

Lemma hoare_db_is_None P E :
  hoare P db_is_None (fun b d => b = false /\ P d) E.
Proof. intros d HP. cbn. auto. Qed.

Lemma collection_st q c d name : st q c d -> collection d name = coll c name.
Proof. intros [<- _]. reflexivity. Qed.

Lemma st_closed q c : closed (st q c).
Proof.
  intros d o fs [Hc Hq] Hf. split; [exact Hc|].
  intros Hq'. rewrite (Hq Hq') in Hf. discriminate.
Qed.

Lemma st_not_quiet q c d o fs : st q c d -> faults d = o :: fs -> ~ q.
Proof. intros [_ Hq] Hf Hq'. rewrite (Hq Hq') in Hf. discriminate. Qed.

Lemma st_eq c d : st True c d -> d = mkDatabase c [].
Proof. destruct d as [c' fs]. intros [Hc Hq]. cbn in *. now rewrite Hc, Hq. Qed.

Lemma st_set_collection q c d name l :
  st q c d -> st q (<[name := l]> c) (set_collection d name l).
Proof. intros [<- Hq]. split; [reflexivity | exact Hq]. Qed.

Lemma hoare_find_one q c E (name : string) (filter : items) :
  faulty (st q c) E ->
  hoare (st q c) (find_one name filter)
    (fun r d => r = List.find (matches filter) (coll c name) /\ st q c d) E.
Proof.
  intros Hf. unfold find_one.
  eapply hoare_bind; [apply hoare_round_trip; [apply st_closed | exact Hf]|].
  intros d1. apply hoare_ret. intros d [-> HP].
  now rewrite (collection_st _ _ _ _ HP).
Qed.

Lemma hoare_update_one q c E
    (name : string) (filter fields : items) (upsert : option ObjectId) :
  faulty (st q c) E ->
  hoare (st q c) (update_one name filter fields upsert)
    (fun _ d => st q (update_one_colls name filter fields upsert c) d) E.
Proof.
  intros Hf. unfold update_one.
  eapply hoare_bind; [apply hoare_round_trip; [apply st_closed | exact Hf]|].
  intros d1 d [-> HP]. unfold update_one_colls.
  rewrite (collection_st _ _ _ _ HP).
  destruct (update_first _ _ _); [now apply st_set_collection|].
  destruct upsert; [now apply st_set_collection | exact HP].
Qed.

Context `{External}.

Lemma hoare_create_document q c E
    (name : string) (data : doc) (new_id : ObjectId) :
  faulty (st q c) E ->
  hoare (st q c) (create_document name data new_id)
    (fun r d =>
       r = hexlify new_id /\
       st q (<[name := coll c name ++ [<["_id" := VOid new_id]> data]]> c) d) E.
Proof.
  intros Hf. unfold create_document.
  eapply hoare_bind; [apply hoare_db_is_None|].
  intros b. apply hoare_pure. intros ->.
  eapply hoare_bind; [apply hoare_round_trip; [apply st_closed | exact Hf]|].
  intros d1 d [-> HP]. cbn. split; [reflexivity|].
  rewrite (collection_st _ _ _ _ HP). now apply st_set_collection.
Qed.

Lemma hoare_get_documents q c E (name : string) (limit : nat) :
  faulty (st q c) E ->
  hoare (st q c) (get_documents name limit)
    (fun r d => r = take limit (coll c name) /\ st q c d) E.
Proof.
  intros Hf. unfold get_documents.
  eapply hoare_bind; [apply hoare_db_is_None|].
  intros b. apply hoare_pure. intros ->.
  eapply hoare_bind; [apply hoare_round_trip; [apply st_closed | exact Hf]|].
  intros d1. apply hoare_ret. intros d [-> HP].
  now rewrite (collection_st _ _ _ _ HP).
Qed.

End Primitives.
(* ===================================================================== *)
(** * Facts about the store *)
(* ===================================================================== *)

Section Store.
Implicit Types (p : doc -> bool) (f : doc -> doc) (l : list doc).

Lemma collection_coll (d : Database) (name : string) :
  collection d name = coll (collections d) name.
Proof. reflexivity. Qed.

Lemma coll_insert_eq c name l : coll (<[name := l]> c) name = l.
Proof. unfold coll. now rewrite lookup_insert_eq. Qed.

Lemma coll_insert_ne c name name' l :
  name <> name' -> coll (<[name := l]> c) name' = coll c name'.
Proof. intros Hne. unfold coll. now rewrite lookup_insert_ne. Qed.

Lemma coll_empty name : coll ∅ name = [].
Proof. unfold coll. now rewrite lookup_empty. Qed.

Lemma find_none_Forall p l :
  List.find p l = None <-> Forall (fun x => p x = false) l.
Proof.
  induction l as [|x l IH]; cbn.
  - split; [constructor | reflexivity].
  - destruct (p x) eqn:Hx.
    + split; [discriminate | intros Hall; inversion Hall; congruence].
    + rewrite IH. split; [now constructor | intros Hall; now inversion Hall].
Qed.

Lemma find_split p l x :
  List.find p l = Some x ->
  exists l1 l2, l = l1 ++ x :: l2 /\ Forall (fun y => p y = false) l1 /\ p x = true.
Proof.
  induction l as [|y l IH]; cbn; [discriminate|].
  destruct (p y) eqn:Hy.
  - intros [= ->]. exists [], l. repeat split; [constructor | assumption].
  - intros (l1 & l2 & -> & Hl1 & Hx)%IH. exists (y :: l1), l2.
    repeat split; [now constructor | assumption].
Qed.

Lemma find_middle p l1 x l2 :
  Forall (fun y => p y = false) l1 -> p x = true ->
  List.find p (l1 ++ x :: l2) = Some x.
Proof.
  induction 1 as [|y l1 Hy _ IH]; cbn; intros Hx.
  - now rewrite Hx.
  - rewrite Hy. now apply IH.
Qed.

Lemma update_first_middle p f l1 x l2 :
  Forall (fun y => p y = false) l1 -> p x = true ->
  update_first p f (l1 ++ x :: l2) = Some (l1 ++ f x :: l2).
Proof.
  induction 1 as [|y l1 Hy _ IH]; cbn; intros Hx.
  - now rewrite Hx.
  - rewrite Hy, IH by assumption. reflexivity.
Qed.

Lemma update_first_none p f l :
  Forall (fun y => p y = false) l -> update_first p f l = None.
Proof.
  induction 1 as [|y l Hy _ IH]; cbn; [reflexivity|]. now rewrite Hy, IH.
Qed.

(** A field filter only reads its own field. *)
Lemma field_matches_ext (d d' : doc) (kv : string * value) :
  d !! kv.1 = d' !! kv.1 -> field_matches d kv = field_matches d' kv.
Proof. unfold field_matches. now intros ->. Qed.

Lemma apply_set_cons kv (fields : items) (d : doc) :
  apply_set (kv :: fields) d = apply_set fields (<[kv.1 := kv.2]> d).
Proof. reflexivity. Qed.

Lemma apply_set_lookup_ne (fields : items) (d : doc) (k : string) :
  Forall (fun kv => kv.1 <> k) fields -> apply_set fields d !! k = d !! k.
Proof.
  intros Hall. revert d. induction Hall as [|kv fields Hkv _ IH]; intros d.
  - reflexivity.
  - rewrite apply_set_cons, IH. now apply lookup_insert_ne.
Qed.

(** A document found under a given [_id] has that field. *)
Lemma matches_id_has_id (o : ObjectId) (d : doc) :
  matches [("_id", VOid o)] d = true -> exists v, d !! "_id" = Some v.
Proof.
  unfold matches. cbn. rewrite Bool.andb_true_r. unfold field_matches. cbn.
  destruct (d !! "_id") as [v|]; [eauto | discriminate].
Qed.

Lemma size_pos_of_lookup (d : doc) (k : string) (v : value) :
  d !! k = Some v -> (size d =? 0)%nat = false.
Proof.
  intros Hk. apply Nat.eqb_neq. intros Hsz.
  apply map_size_empty_iff in Hsz. subst. now rewrite lookup_empty in Hk.
Qed.

(** Popping [_id] and then setting [id], as [process_job] and
    [connect_account] do, gives the document the listings make. *)
Lemma exposed_pop (d : doc) (v : value) :
  d !! "_id" = Some v ->
  exposed d = <["id" := VStr (str v)]> (delete "_id" d).
Proof.
  intros Hv. unfold exposed. rewrite Hv. now apply delete_insert_ne.
Qed.

End Store.


(* ===================================================================== *)
(** * The specification of [process_job] *)
(* ===================================================================== *)

Section Process.

Lemma ObjectId_of_str_Raise (s : string) (e : exn) :
  ObjectId_of_str s = Raise e -> e = InvalidId s.
Proof.
  unfold ObjectId_of_str. destruct (_ =? _)%nat; [|now intros [= <-]].
  destruct (fromhex s); [discriminate | now intros [= <-]].
Qed.

Lemma matches_job_filter_ext (oid : ObjectId) (d d' : doc) :
  d !! "_id" = d' !! "_id" ->
  matches (job_filter oid) d = matches (job_filter oid) d'.
Proof.
  intros Hid. unfold matches, job_filter. cbn [forallb]. f_equal.
  now apply field_matches_ext.
Qed.

Lemma processing_id (job : doc) :
  apply_set processing_fields job !! "_id" = job !! "_id".
Proof. apply apply_set_lookup_ne. repeat constructor; discriminate. Qed.

Lemma processed_id (job : doc) : processed job !! "_id" = job !! "_id".
Proof.
  unfold processed. rewrite apply_set_lookup_ne, processing_id; [reflexivity|].
  repeat constructor; discriminate.
Qed.

Lemma process_job_try_spec (q : Prop) (c0 : gmap string (list doc))
    (job_id : string) :
  hoare (st q c0) (process_job_try job_id)
    (process_success q c0 job_id) (process_failure q c0 job_id).
Proof.
  unfold process_job_try.
  eapply hoare_bind; [apply hoare_db_is_None|].
  intros b. apply hoare_pure. intros ->.
  apply hoare_bind_lift.
  destruct (ObjectId_of_str job_id) as [oid|e] eqn:Hoid.
  2:{ intros d Hd. pose proof (ObjectId_of_str_Raise _ _ Hoid) as ->.
      now constructor. }
  assert (Hfaulty : forall c', process_partial c0 oid c' ->
            faulty (st q c') (process_failure q c0 job_id)).
  { intros c' Hc' d msg fs Hd Hf.
    apply (failure_store q c0 job_id oid msg c'); auto.
    - exact (st_not_quiet q c' d _ fs Hd Hf).
    - exact (st_closed q c' d _ fs Hd Hf). }
  eapply hoare_bind; [apply hoare_find_one, Hfaulty; constructor|].
  intros job. apply hoare_pure. intros ->.
  destruct (List.find _ _) as [job|] eqn:Hfind.
  2:{ apply hoare_raise. intros d Hd.
      exact (failure_not_found q c0 job_id oid d Hoid Hfind Hd). }
  destruct (find_split _ _ _ Hfind) as (l1 & l2 & Hsplit & Hl1 & Hjob).
  destruct (matches_id_has_id _ _ Hjob) as [v Hv].
  cbn [not_ default]. rewrite (size_pos_of_lookup _ _ _ Hv).
  eapply hoare_bind; [apply hoare_update_one, Hfaulty; constructor|].
  intros []. unfold update_one_colls. fold (job_filter oid). fold processing_fields.
  rewrite Hsplit, (update_first_middle _ _ _ _ _ Hl1 Hjob).
  assert (Hjob1 : matches (job_filter oid) (apply_set processing_fields job) = true).
  { rewrite <- Hjob. apply matches_job_filter_ext, processing_id. }
  eapply hoare_bind.
  { apply hoare_update_one, Hfaulty. econstructor; eauto. }
  intros []. unfold update_one_colls. fold (job_filter oid).
  rewrite coll_insert_eq, (update_first_middle _ _ _ _ _ Hl1 Hjob1).
  rewrite insert_insert_eq. fold (completed_fields job). fold (processed job).
  assert (Hjob2 : matches (job_filter oid) (processed job) = true).
  { rewrite <- Hjob. apply matches_job_filter_ext, processed_id. }
  eapply hoare_bind.
  { apply hoare_find_one, Hfaulty. econstructor; eauto. }
  intros updated. apply hoare_pure. intros ->.
  rewrite coll_insert_eq, (find_middle _ _ _ _ Hl1 Hjob2).
  apply hoare_bind_lift. cbn [dict].
  apply hoare_bind_lift. unfold pop_id, pop. rewrite processed_id, Hv.
  apply hoare_ret. intros d Hd. cbn [fst snd].
  exact (success_processed q c0 job_id oid l1 job l2 v d Hoid Hsplit Hl1 Hjob Hv Hd).
Qed.

(** [process_job]: the [try] block with its two [except] clauses. *)
Lemma process_job_spec (q : Prop) (c0 : gmap string (list doc))
    (job_id : string) :
  hoare (st q c0) (process_job job_id)
    (process_success q c0 job_id)
    (fun e d => exists e0, process_failure q c0 job_id e0 d /\
       e = if is_HTTPException e0 then e0 else HTTPException 500 (str_exn e0)).
Proof.
  unfold process_job.
  eapply hoare_try_except; [apply process_job_try_spec|].
  intros e. unfold reraise_or_internal_error, internal_error.
  destruct (is_HTTPException e) eqn:He; apply hoare_raise; intros d Hd;
    exists e; now rewrite He.
Qed.

End Process.

(* ===================================================================== *)
(** * The specification of [connect_account] *)
(* ===================================================================== *)

Section Connect.

Lemma connected_platform payload (a : doc) :
  connected payload a !! "platform" = Some (VStr (platform_of payload)).
Proof. unfold connected, account_fields, apply_set. cbn. now lookups. Qed.

Lemma connected_name payload (a : doc) :
  connected payload a !! "account_name" =
  Some (VStr (opt_or (ConnectAccountRequest.account_name payload)
                     (title (platform_of payload)))).
Proof. unfold connected, account_fields, apply_set. cbn. now lookups. Qed.

Lemma connected_flag payload (a : doc) :
  connected payload a !! "connected" = Some (VBool true).
Proof. unfold connected, account_fields, apply_set. cbn. now lookups. Qed.

Lemma connected_other payload (a : doc) (k : string) :
  k <> "platform" -> k <> "account_name" -> k <> "connected" ->
  connected payload a !! k = a !! k.
Proof.
  intros H1 H2 H3. unfold connected, account_fields, apply_set. cbn.
  now rewrite !lookup_insert_ne by congruence.
Qed.

Lemma inserted_account_eq payload new_id :
  inserted_account payload new_id =
  connected payload
    (<["platform" := VStr (platform_of payload)]> {[ "_id" := VOid new_id ]}).
Proof. reflexivity. Qed.

Lemma matches_platform (p : string) (a : doc) :
  a !! "platform" = Some (VStr p) -> matches (account_filter p) a = true.
Proof.
  intros Ha. unfold matches, account_filter, field_matches. cbn.
  rewrite Ha. cbn. now rewrite String.eqb_refl.
Qed.

Lemma upserted_find c0 payload new_id c' a :
  upserted c0 payload new_id c' a ->
  List.find (matches (account_filter (platform_of payload))) (coll c' "account")
  = Some a.
Proof.
  intros [l1 a0 l2 Hsplit Hl1 Ha0 | Hall]; rewrite coll_insert_eq.
  - apply find_middle; [assumption|].
    apply matches_platform, connected_platform.
  - apply find_middle; [assumption|].
    rewrite inserted_account_eq. apply matches_platform, connected_platform.
Qed.

Lemma update_one_colls_upserted c0 payload new_id :
  exists a,
    upserted c0 payload new_id
      (update_one_colls "account" (account_filter (platform_of payload))
         (account_fields payload) (Some new_id) c0) a.
Proof.
  unfold update_one_colls.
  destruct (List.find (matches (account_filter (platform_of payload)))
              (coll c0 "account")) as [a|] eqn:Hfind.
  - destruct (find_split _ _ _ Hfind) as (l1 & l2 & Hsplit & Hl1 & Ha).
    rewrite Hsplit, (update_first_middle _ _ _ _ _ Hl1 Ha).
    exists (connected payload a). now constructor.
  - apply find_none_Forall in Hfind.
    rewrite (update_first_none _ _ _ Hfind).
    exists (inserted_account payload new_id). now constructor.
Qed.

Lemma connect_account_try_spec (q : Prop) (c0 : gmap string (list doc))
    (payload : ConnectAccountRequest.t) (new_id : ObjectId) :
  hoare (st q c0) (connect_account_try payload new_id)
    (connect_success q c0 payload new_id) (connect_failure q c0 payload new_id).
Proof.
  unfold connect_account_try.
  eapply hoare_bind; [apply hoare_db_is_None|].
  intros b. apply hoare_pure. intros ->.
  fold (platform_of payload).
  destruct (mem (platform_of payload) platforms) eqn:Hmem; cbn [negb].
  2:{ apply hoare_raise. intros d Hd. now constructor. }
  assert (Hfaulty : forall c',
            c' = c0 \/ (exists a, upserted c0 payload new_id c' a) ->
            faulty (st q c') (connect_failure q c0 payload new_id)).
  { intros c' Hc' d msg fs Hd Hf.
    apply (failure_connect_store q c0 payload new_id msg c'); auto.
    - exact (st_not_quiet q c' d _ fs Hd Hf).
    - exact (st_closed q c' d _ fs Hd Hf). }
  eapply hoare_bind; [apply hoare_update_one, Hfaulty; now left|].
  intros [].
  fold (account_filter (platform_of payload)). fold (account_fields payload).
  destruct (update_one_colls_upserted c0 payload new_id) as [a Hup].
  eapply hoare_bind; [apply hoare_find_one, Hfaulty; eauto|].
  intros doc. apply hoare_pure. intros ->.
  rewrite (upserted_find _ _ _ _ _ Hup).
  apply hoare_bind_lift. cbn [dict].
  apply hoare_bind_lift. unfold pop_id, pop.
  destruct (a !! "_id") as [v|] eqn:Hv.
  - apply hoare_ret. intros d Hd. cbn [fst snd].
    exact (success_connected q c0 payload new_id _ a v d Hmem Hup Hv Hd).
  - intros d Hd.
    exact (failure_no_id q c0 payload new_id _ a d Hmem Hup Hv Hd).
Qed.

Lemma connect_account_spec (q : Prop) (c0 : gmap string (list doc))
    (payload : ConnectAccountRequest.t) (new_id : ObjectId) :
  hoare (st q c0) (connect_account payload new_id)
    (connect_success q c0 payload new_id)
    (fun e d => exists e0, connect_failure q c0 payload new_id e0 d /\
       e = if is_HTTPException e0 then e0 else HTTPException 500 (str_exn e0)).
Proof.
  unfold connect_account.
  eapply hoare_try_except; [apply connect_account_try_spec|].
  intros e. unfold reraise_or_internal_error, internal_error.
  destruct (is_HTTPException e) eqn:He; apply hoare_raise; intros d Hd;
    exists e; now rewrite He.
Qed.

End Connect.

(* ===================================================================== *)
(** * The specifications of [create_job] and of the listings *)
(* ===================================================================== *)

Section CreateList.
Context `{External}.

Lemma create_job_try_spec (q : Prop) (c0 : gmap string (list doc))
    (payload : CreateJobRequest.t) (new_id : ObjectId) :
  hoare (st q c0) (create_job_try payload new_id)
    (create_success q c0 payload new_id) (create_failure q c0 payload).
Proof.
  unfold create_job_try. apply hoare_bind_lift.
  destruct (job_of payload) as [job|e] eqn:Hjob.
  2:{ intros d Hd. now constructor. }
  eapply hoare_bind.
  { apply hoare_create_document. intros d msg fs Hd Hf.
    apply (failure_create_store q c0 payload job msg); auto.
    - exact (st_not_quiet q c0 d _ fs Hd Hf).
    - exact (st_closed q c0 d _ fs Hd Hf). }
  intros inserted_id. apply hoare_pure. intros ->.
  apply hoare_ret. intros d Hd. now constructor.
Qed.

Lemma create_job_spec (q : Prop) (c0 : gmap string (list doc))
    (payload : CreateJobRequest.t) (new_id : ObjectId) :
  hoare (st q c0) (create_job payload new_id)
    (create_success q c0 payload new_id)
    (fun e d => exists e0, create_failure q c0 payload e0 d /\
       e = HTTPException 500 (str_exn e0)).
Proof.
  unfold create_job.
  eapply hoare_try_except; [apply create_job_try_spec|].
  intros e. apply hoare_raise. intros d Hd. now exists e.
Qed.

Lemma fold_expose_id (docs out : list doc) :
  fold_left expose_id docs out = out ++ map exposed docs.
Proof.
  revert out. induction docs as [|x docs IH]; intros out; cbn.
  - now rewrite app_nil_r.
  - rewrite IH. unfold expose_id. now rewrite <- app_assoc.
Qed.

Lemma list_try_spec (q : Prop) (c0 : gmap string (list doc))
    (name : string) (limit : nat) :
  hoare (st q c0)
    (let* docs := get_documents name limit in
     let out := fold_left expose_id docs [] in
     ret out)
    (fun r d => r = map exposed (take limit (coll c0 name)) /\ st q c0 d)
    (list_failure q c0).
Proof.
  eapply hoare_bind.
  { apply hoare_get_documents. intros d msg fs Hd Hf. exists msg.
    split; [reflexivity|]. split.
    - exact (st_not_quiet q c0 d _ fs Hd Hf).
    - exact (st_closed q c0 d _ fs Hd Hf). }
  intros docs. apply hoare_pure. intros ->.
  apply hoare_ret. intros d Hd. now rewrite fold_expose_id.
Qed.

Lemma list_spec (q : Prop) (c0 : gmap string (list doc))
    (name : string) (limit : nat) :
  hoare (st q c0)
    (try_except
       (let* docs := get_documents name limit in
        let out := fold_left expose_id docs [] in
        ret out)
       internal_error)
    (fun r d => r = map exposed (take limit (coll c0 name)) /\ st q c0 d)
    (fun e d => exists e0, list_failure q c0 e0 d /\
       e = HTTPException 500 (str_exn e0)).
Proof.
  eapply hoare_try_except; [apply list_try_spec|].
  intros e. apply hoare_raise. intros d Hd. now exists e.
Qed.

End CreateList.

(* ===================================================================== *)
(** * The invariant of the reachable states *)
(* ===================================================================== *)

Section Invariant.
Context `{External}.

Lemma job_of_Ok payload job :
  job_of payload = Ok job ->
  VideoJob.status job = "queued" /\ VideoJob.error job = None /\
  VideoJob.result_video_url job = None /\ VideoJob.platforms_posted job = [] /\
  VideoJob.voice job = opt_or (CreateJobRequest.voice payload) "female-soft" /\
  VideoJob.aspect_ratio job =
    opt_or (CreateJobRequest.aspect_ratio payload) "9:16" /\
  VideoJob.include_captions job =
    true_if_None (CreateJobRequest.include_captions payload) /\
  VideoJob.include_broll job =
    true_if_None (CreateJobRequest.include_broll payload) /\
  VideoJob.autopost_youtube job =
    bool_of (CreateJobRequest.autopost_youtube payload) /\
  VideoJob.autopost_tiktok job =
    bool_of (CreateJobRequest.autopost_tiktok payload) /\
  VideoJob.autopost_instagram job =
    bool_of (CreateJobRequest.autopost_instagram payload).
Proof.
  unfold job_of, VideoJob.new.
  destruct (_ ++ _); [|discriminate]. intros [= <-]. cbn. tauto.
Qed.

Lemma stored_job_lookup (job : VideoJob.t) (new_id : ObjectId) :
  let j := <["_id" := VOid new_id]> (VideoJob.to_doc job) in
  j !! "_id" = Some (VOid new_id) /\
  j !! "voice" = Some (VStr (VideoJob.voice job)) /\
  j !! "aspect_ratio" = Some (VStr (VideoJob.aspect_ratio job)) /\
  j !! "include_captions" = Some (VBool (VideoJob.include_captions job)) /\
  j !! "include_broll" = Some (VBool (VideoJob.include_broll job)) /\
  j !! "autopost_youtube" = Some (VBool (VideoJob.autopost_youtube job)) /\
  j !! "autopost_tiktok" = Some (VBool (VideoJob.autopost_tiktok job)) /\
  j !! "autopost_instagram" = Some (VBool (VideoJob.autopost_instagram job)) /\
  j !! "status" = Some (VStr (VideoJob.status job)) /\
  j !! "error" = Some (of_opt (VideoJob.error job)).
Proof.
  cbn zeta. unfold VideoJob.to_doc, apply_set. cbn [fold_left fst snd].
  repeat split; now lookups.
Qed.

Lemma created_job_ok payload job (new_id : ObjectId) :
  job_of payload = Ok job ->
  let j := <["_id" := VOid new_id]> (VideoJob.to_doc job) in
  job_ok j /\ job_settled j.
Proof.
  intros (Hstatus & Herror & _)%job_of_Ok. cbn zeta.
  destruct (stored_job_lookup job new_id)
    as (Hid & _ & _ & _ & _ & _ & _ & _ & Hst & Herr).
  unfold job_ok, job_settled, has_id, get.
  rewrite Hst, Herr, Hstatus, Herror. cbn. eauto 8.
Qed.

Lemma processing_job_ok (job : doc) :
  job_ok job -> job_ok (apply_set processing_fields job).
Proof.
  intros (Hid & Herr & _). unfold job_ok, has_id, get in *.
  rewrite processing_id. split; [exact Hid|].
  unfold processing_fields, apply_set. cbn [fold_left fst snd]. lookups.
  split; [exact Herr | cbn; tauto].
Qed.

Lemma processed_job_ok (job : doc) :
  job_ok job -> job_ok (processed job) /\ job_settled (processed job).
Proof.
  intros (Hid & Herr & _). unfold job_ok, job_settled, has_id, get in *.
  rewrite processed_id.
  unfold processed, completed_fields, processing_fields, apply_set.
  cbn [fold_left fst snd]. lookups. cbn. tauto.
Qed.

Lemma invariant_jobs (c : gmap string (list doc)) (l : list doc) :
  invariant c -> Forall job_ok l -> invariant (<["videojob" := l]> c).
Proof.
  intros (_ & Ha & Hn) Hl. unfold invariant.
  rewrite coll_insert_eq, !coll_insert_ne by discriminate. auto.
Qed.

Lemma invariant_accounts (c : gmap string (list doc)) (l : list doc) :
  invariant c -> Forall account_ok l -> one_per_platform l ->
  invariant (<["account" := l]> c).
Proof.
  intros (Hj & _ & _) Hl Hn. unfold invariant.
  rewrite coll_insert_eq, !coll_insert_ne by discriminate. auto.
Qed.


Lemma Forall_replace {X} (P : X -> Prop) (l1 l2 : list X) (x y : X) :
  Forall P (l1 ++ x :: l2) -> P y -> Forall P (l1 ++ y :: l2).
Proof.
  rewrite !Forall_app, !Forall_cons. tauto.
Qed.

Lemma Forall_middle {X} (P : X -> Prop) (l1 l2 : list X) (x : X) :
  Forall P (l1 ++ x :: l2) -> P x.
Proof. rewrite Forall_app, Forall_cons. tauto. Qed.

Lemma process_partial_invariant c0 oid c' :
  invariant c0 -> process_partial c0 oid c' -> invariant c'.
Proof.
  intros Hinv [|l1 job l2 job' Hsplit _ _ Hjob']; [exact Hinv|].
  apply invariant_jobs; [exact Hinv|].
  destruct Hinv as (Hjobs & _). rewrite Hsplit in Hjobs.
  eapply Forall_replace; [exact Hjobs|].
  pose proof (Forall_middle _ _ _ _ Hjobs) as Hok.
  destruct Hjob' as [-> | ->];
    [now apply processing_job_ok | now apply processed_job_ok].
Qed.

(** An account of the invariant that the filter of a platform finds is the
    account of that platform. *)
Lemma account_matches (p : string) (a : doc) :
  account_ok a ->
  matches (account_filter p) a = true <-> a !! "platform" = Some (VStr p).
Proof.
  intros (_ & p' & Hp' & _). split; [|apply matches_platform].
  unfold matches, account_filter, field_matches. cbn. rewrite Hp'. cbn.
  rewrite Bool.andb_true_r. now intros ->%String.eqb_eq.
Qed.

Lemma connected_account_ok payload (a : doc) :
  mem (platform_of payload) platforms = true ->
  has_id a -> account_ok (connected payload a).
Proof.
  intros Hmem [o Ho]. split.
  - exists o. now rewrite connected_other by discriminate.
  - exists (platform_of payload). split; [apply connected_platform|].
    now apply mem_In.
Qed.

Lemma upserted_invariant c0 payload new_id c' a :
  mem (platform_of payload) platforms = true ->
  invariant c0 -> upserted c0 payload new_id c' a -> invariant c'.
Proof.
  intros Hmem Hinv [l1 a0 l2 Hsplit Hl1 Ha0 | Hall].
  - pose proof Hinv as (_ & Hacc & Hnodup). rewrite Hsplit in Hacc, Hnodup.
    pose proof (Forall_middle _ _ _ _ Hacc) as Hok.
    apply invariant_accounts; [exact Hinv| |].
    + eapply Forall_replace; [exact Hacc|].
      apply connected_account_ok; [exact Hmem | apply Hok].
    + unfold one_per_platform in *. rewrite map_app in *. cbn [map] in *.
      rewrite connected_platform.
      now rewrite (proj1 (account_matches _ _ Hok) Ha0) in Hnodup.
  - pose proof Hinv as (_ & Hacc & Hnodup).
    apply invariant_accounts; [exact Hinv| |].
    + apply Forall_app. split; [exact Hacc|]. constructor; [|constructor].
      rewrite inserted_account_eq. apply connected_account_ok; [exact Hmem|].
      exists new_id. now lookups.
    + unfold one_per_platform in *. rewrite map_app. cbn [map].
      rewrite inserted_account_eq, connected_platform.
      apply NoDup_app. split; [exact Hnodup|]. split.
      * intros x Hx [<-|[]]%list_elem_of_In.
        apply list_elem_of_In, in_map_iff in Hx. destruct Hx as (a' & Ha' & Hin).
        apply list_elem_of_In in Hin. rewrite Forall_forall in Hall, Hacc.
        specialize (Hall a' Hin). specialize (Hacc a' Hin).
        rewrite (proj2 (account_matches _ _ Hacc) Ha') in Hall. discriminate.
      * apply NoDup_singleton.
Qed.

(** Every handler preserves the invariant, whatever it answers. *)
Lemma st_start (d : Database) : st False (collections d) d.
Proof. split; [reflexivity | tauto]. Qed.

Lemma reachable_invariant fs d : reachable fs d -> invariant (collections d).
Proof.
  induction 1 as [| d r d' _ IH Hrun | d payload new_id r d' _ IH Hrun
                  | d job_id r d' _ IH Hrun | d r d' _ IH Hrun
                  | d payload new_id r d' _ IH Hrun].
  - cbn. unfold invariant. rewrite !coll_empty. repeat constructor.
  - pose proof (list_spec False _ "videojob" 100 d (st_start d)) as Hs.
    change (try_except _ _) with list_jobs in Hs. rewrite Hrun in Hs.
    destruct r as [r|e].
    + destruct Hs as (_ & -> & _). exact IH.
    + destruct Hs as (e0 & (msg & _ & _ & -> & _) & _). exact IH.
  - pose proof (create_job_spec False _ payload new_id d (st_start d)) as Hs.
    rewrite Hrun in Hs. destruct r as [r|e].
    + destruct Hs as [job d'' Hjob [-> _]].
      apply invariant_jobs; [exact IH|].
      apply Forall_app. split; [apply IH|].
      constructor; [|constructor]. now apply (created_job_ok payload).
    + destruct Hs as (e0 & [e1 d'' _ [-> _] | job msg d'' _ _ [-> _]] & _);
        exact IH.
  - pose proof (process_job_spec False _ job_id d (st_start d)) as Hs.
    rewrite Hrun in Hs. destruct r as [r|e].
    + destruct Hs as [oid l1 job l2 v d'' Hoid Hsplit Hl1 Hjob Hv [-> _]].
      apply (process_partial_invariant (collections d) oid); [exact IH|].
      econstructor; eauto.
    + destruct Hs as (e0 & [d'' _ [-> _] | oid d'' _ _ [-> _]
                            | oid msg c' d'' _ _ Hpart [-> _]] & _);
        try exact IH.
      now apply (process_partial_invariant (collections d) oid) in Hpart.
  - pose proof (list_spec False _ "account" 50 d (st_start d)) as Hs.
    change (try_except _ _) with list_accounts in Hs. rewrite Hrun in Hs.
    destruct r as [r|e].
    + destruct Hs as (_ & -> & _). exact IH.
    + destruct Hs as (e0 & (msg & _ & _ & -> & _) & _). exact IH.
  - pose proof (connect_account_spec False _ payload new_id d (st_start d)) as Hs.
    rewrite Hrun in Hs. destruct r as [r|e].
    + destruct Hs as [c' a v d'' Hmem Hup Hv [-> _]].
      now apply (upserted_invariant (collections d) payload new_id _ a).
    + destruct Hs as (e0 & [d'' _ [-> _]
                            | msg c' d'' Hmem _ [->|[a Hup]] [-> _]
                            | c' a d'' Hmem Hup _ [-> _]] & _);
        try exact IH;
        now apply (upserted_invariant (collections d) payload new_id _ a).
Qed.

Lemma st_quiet (d : Database) : faults d = [] -> st True (collections d) d.
Proof. intros Hf. split; [reflexivity | now intros _]. Qed.


End Invariant.

(* ===================================================================== *)
(** * Theorems: processing a job *)
(* ===================================================================== *)

Section ProcessJob.

(** A record returned by [process_job] comes from a configured store, out of
    the job its identifier finds there. *)
Lemma process_job_Ok_inv (q : Prop) (job_id : string) (h h' : handle) (r : doc) :
  process_job job_id h = (Ok r, h') ->
  (forall d, h = Some d -> q -> faults d = []) ->
  exists d d', h = Some d /\ h' = Some d' /\
    process_success q (collections d) job_id r d'.
Proof.
  destruct h as [d|]; [|discriminate]. intros Hrun Hq.
  assert (Hst : st q (collections d) d) by (split; [reflexivity | now apply Hq]).
  pose proof (process_job_spec q _ job_id d Hst) as Hs.
  rewrite Hrun in Hs. destruct h' as [d'|]; [|contradiction]. eauto.
Qed.

Lemma processed_lookups (job : doc) (v : value) :
  let r := <["id" := VStr (str v)]> (delete "_id" (processed job)) in
  r !! "status" = Some (VStr "completed") /\
  r !! "result_video_url" = Some (VStr result_url) /\
  r !! "platforms_posted" = Some (VList (map VStr (platforms_of job))) /\
  r !! "error" = job !! "error" /\
  r !! "id" = Some (VStr (str v)) /\
  r !! "_id" = None.
Proof.
  cbn zeta. unfold processed, completed_fields, processing_fields, apply_set.
  cbn [fold_left fst snd]. repeat split; now lookups.
Qed.


(** The list built by [process_job] is the selection, in the order of the
    three platforms, of those whose flag is true. *)
Lemma platforms_of_filter (job : doc) :
  platforms_of job =
  List.filter (fun p => truthy (get job ("autopost_" +:+ p)))
    ["youtube"; "tiktok"; "instagram"].
Proof.
  unfold platforms_of.
  change (List.filter (fun p => truthy (get job ("autopost_" +:+ p)))
            ["youtube"; "tiktok"; "instagram"])
    with (let i := if truthy (get job "autopost_instagram")
                   then ["instagram"] else [] in
          let t := if truthy (get job "autopost_tiktok") then "tiktok" :: i else i in
          if truthy (get job "autopost_youtube") then "youtube" :: t else t).
  destruct (truthy (get job "autopost_youtube")),
           (truthy (get job "autopost_tiktok")),
           (truthy (get job "autopost_instagram")); reflexivity.
Qed.

Lemma process_job_runs (d : Database) (job_id : string) (oid : ObjectId)
    (job : doc) :
  ObjectId_of_str job_id = Ok oid ->
  List.find (matches (job_filter oid)) (jobs d) = Some job ->
  faults d = [] ->
  exists r d', process_job job_id (Some d) = (Ok r, Some d').
Proof.
  intros Hoid Hfind Hf.
  pose proof (process_job_spec True _ job_id d (st_quiet d Hf)) as Hs.
  destruct (process_job job_id (Some d)) as [[r|e] [d'|]]; try contradiction.
  - eauto.
  - destruct Hs as (e0 & [d'' Hbad _ | oid' d'' Hoid' Hnone _
                          | oid' msg c' d'' _ Hq _ _] & _).
    + rewrite Hoid in Hbad. discriminate.
    + rewrite Hoid in Hoid'. injection Hoid' as <-.
      unfold jobs, collection in Hfind. unfold coll in Hnone. congruence.
    + now destruct Hq.
Qed.

(** C1.  For a job of the store, found under the identifier [job_id]:
    [process_job] returns (it does whenever no round trip to the store
    fails), and the record it returns has status [completed], the fixed
    sample URL as [result_video_url], and as [platforms_posted] exactly those
    of youtube, tiktok, instagram whose autopost flag is true on the stored
    job. *)
Theorem process_job_completes (d : Database) (job_id : string)
    (oid : ObjectId) (job : doc) :
  ObjectId_of_str job_id = Ok oid ->
  List.find (matches (job_filter oid)) (jobs d) = Some job ->
  (faults d = [] ->
   exists r d', process_job job_id (Some d) = (Ok r, Some d')) /\
  (forall r h', process_job job_id (Some d) = (Ok r, h') ->
     r !! "status" = Some (VStr "completed") /\
     r !! "result_video_url" =
       Some (VStr "https://samplelib.com/lib/preview/mp4/sample-5s.mp4") /\
     r !! "platforms_posted" =
       Some (VList (map VStr
         (List.filter (fun p => truthy (get job ("autopost_" +:+ p)))
            ["youtube"; "tiktok"; "instagram"])))).
Proof.
  intros Hoid Hfind. split; [now apply (process_job_runs d job_id oid job)|].
  intros r h' Hrun.
  destruct (process_job_Ok_inv False job_id _ _ _ Hrun) as (d0 & d' & [= <-] & -> & Hs);
    [tauto|].
  destruct Hs as [oid' l1 job' l2 v d'' Hoid' Hsplit Hl1 Hjob Hv _].
  rewrite Hoid in Hoid'. injection Hoid' as <-.
  assert (job' = job) as ->.
  { unfold jobs, collection in Hfind. unfold coll in Hsplit.
    rewrite Hsplit, (find_middle _ _ _ _ Hl1 Hjob) in Hfind. congruence. }
  destruct (processed_lookups job v) as (Hst & Hurl & Hpp & _).
  rewrite <- platforms_of_filter. auto.
Qed.


(** C3, as the code has it.  When no round trip fails and [job_id] identifies
    no job of the store, [process_job] answers 404 if [job_id] is a
    well-formed identifier, and 500 with the text of [InvalidId] if it is
    not; the store is left as it was. *)
Theorem process_job_unknown_id (d : Database) (job_id : string) :
  faults d = [] ->
  (forall oid, ObjectId_of_str job_id = Ok oid ->
     List.find (matches (job_filter oid)) (jobs d) = None) ->
  process_job job_id (Some d) =
    (Raise match ObjectId_of_str job_id with
           | Ok _ => HTTPException 404 "Job not found"
           | Raise e => HTTPException 500 (str_exn e)
           end,
     Some d).
Proof.
  intros Hf Hnone.
  pose proof (process_job_spec True _ job_id d (st_quiet d Hf)) as Hs.
  destruct (process_job job_id (Some d)) as [[r|e] [d'|]]; try contradiction.
  - destruct Hs as [oid l1 job l2 v d'' Hoid Hsplit Hl1 Hjob Hv _].
    specialize (Hnone oid Hoid). unfold jobs, collection in Hnone.
    unfold coll in Hsplit.
    rewrite Hsplit, (find_middle _ _ _ _ Hl1 Hjob) in Hnone. discriminate.
  - destruct Hs as (e0 & [d'' Hbad Hst | oid d'' Hoid _ Hst
                          | oid msg c' d'' _ Hq _ _] & ->).
    + rewrite Hbad. cbn. f_equal. f_equal.
      rewrite (st_eq _ _ Hst). destruct d as [c fs]. cbn in *. now subst.
    + rewrite Hoid. cbn. f_equal. f_equal.
      rewrite (st_eq _ _ Hst). destruct d as [c fs]. cbn in *. now subst.
    + now destruct Hq.
Qed.

End ProcessJob.

(* ===================================================================== *)
(** * Theorems: connecting an account *)
(* ===================================================================== *)

Section ConnectAccount.

Lemma str_or_empty (s : string) : str_or s "" = s.
Proof. unfold str_or. cbn. now destruct s. Qed.

Lemma opt_or_nonempty (s y : string) : s <> "" -> opt_or (Some s) y = s.
Proof.
  intros Hs. unfold opt_or, str_or. cbn.
  destruct (String.eqb s "") eqn:Heq; [|reflexivity].
  now apply String.eqb_eq in Heq.
Qed.

Lemma lower_upper_char (c : ascii) :
  is_ascii_lower c = true -> lower_char (upper_char c) = c.
Proof.
  destruct c as [[] [] [] [] [] [] [] []]; cbv; intros; congruence.
Qed.

Lemma spelling_lower (s p : string) : spelling s p -> lower p = p -> lower s = p.
Proof.
  induction 1 as [|c s p _ IH|c s p Hc _ IH]; cbn [lower]; [reflexivity| |];
    intros [= Hc' Hp]; rewrite (IH Hp).
  - now rewrite Hc'.
  - now rewrite lower_upper_char.
Qed.

Lemma lower_platform (p : string) : In p platforms -> lower p = p.
Proof. intros [<-|[<-|[<-|[]]]]; reflexivity. Qed.

Lemma upserted_In c0 payload new_id c' a :
  upserted c0 payload new_id c' a -> In a (coll c' "account").
Proof.
  intros [l1 a0 l2 _ _ _ | _]; rewrite coll_insert_eq; apply in_or_app;
    right; now left.
Qed.

Lemma upserted_connected c0 payload new_id c' a :
  upserted c0 payload new_id c' a -> exists a0, a = connected payload a0.
Proof.
  intros [l1 a0 l2 _ _ _ | _]; [now exists a0|].
  rewrite inserted_account_eq. eauto.
Qed.

(** From a state of the invariant, with no failing round trip, a request for
    a known platform succeeds. *)
Lemma connect_account_succeeds (d : Database) payload (new_id : ObjectId) :
  invariant (collections d) -> faults d = [] ->
  mem (platform_of payload) platforms = true ->
  exists c' a v d',
    connect_account payload new_id (Some d) =
      (Ok (<["id" := VStr (str v)]> (delete "_id" a)), Some d') /\
    upserted (collections d) payload new_id c' a /\
    a !! "_id" = Some v /\ collections d' = c' /\ faults d' = [] /\
    invariant c'.
Proof.
  intros Hinv Hf Hmem.
  pose proof (connect_account_spec True _ payload new_id d (st_quiet d Hf)) as Hs.
  destruct (connect_account payload new_id (Some d)) as [[r|e] [d'|]];
    try contradiction.
  - destruct Hs as [c' a v d'' _ Hup Hv [Hc Hq]].
    exists c', a, v, d''.
    split; [reflexivity|]. split; [exact Hup|]. split; [exact Hv|].
    split; [exact Hc|]. split; [exact (Hq I)|].
    now apply (upserted_invariant (collections d) payload new_id c' a).
  - destruct Hs as (e0 & [d'' Hbad _ | msg c' d'' _ Hq _ _
                          | c' a d'' _ Hup Hnone _] & _).
    + congruence.
    + now destruct Hq.
    + pose proof (upserted_invariant _ _ _ _ _ Hmem Hinv Hup) as (_ & Hacc & _).
      rewrite Forall_forall in Hacc.
      destruct (Hacc a) as ([o Ho] & _); [|congruence].
      apply list_elem_of_In. now apply (upserted_In _ _ _ _ _ Hup).
Qed.

Lemma filter_none (p : string) (l : list doc) :
  Forall account_ok l ->
  ~ In (Some (VStr p)) (map (fun a : doc => a !! "platform") l) ->
  List.filter (matches (account_filter p)) l = [].
Proof.
  induction 1 as [|x l Hx _ IH]; cbn [List.filter map In]; [reflexivity|].
  intros Hnot.
  destruct (matches (account_filter p) x) eqn:Hm.
  - apply (account_matches p x Hx) in Hm. tauto.
  - apply IH. tauto.
Qed.

(** Under the invariant the filter of a platform selects one account. *)
Lemma filter_single (p : string) (l : list doc) (a : doc) :
  Forall account_ok l -> one_per_platform l ->
  In a l -> a !! "platform" = Some (VStr p) ->
  List.filter (matches (account_filter p)) l = [a].
Proof.
  unfold one_per_platform.
  induction 1 as [|x l Hx Hl IH]; cbn [List.filter map In]; [tauto|].
  intros [Hnotin Hnodup]%NoDup_cons [->|Hin] Ha.
  - rewrite (matches_platform _ _ Ha). f_equal. apply filter_none; [exact Hl|].
    rewrite <- Ha. intros Hin. now apply Hnotin, list_elem_of_In.
  - destruct (matches (account_filter p) x) eqn:Hm; [|now apply IH].
    apply (account_matches p x Hx) in Hm. exfalso. apply Hnotin.
    apply list_elem_of_In, in_map_iff. exists a. split; [congruence | exact Hin].
Qed.

(** C9.  A request whose platform spells a known platform with some letters
    in upper case succeeds (from any reachable state, when no round trip
    fails), and the stored and returned documents have the lower-case
    platform. *)
Theorem connect_account_ignores_case `{External} (fs : list (option string))
    (d : Database) (payload : ConnectAccountRequest.t) (new_id : ObjectId)
    (p : string) :
  reachable fs d -> faults d = [] ->
  In p platforms -> spelling (ConnectAccountRequest.platform payload) p ->
  exists r a d',
    connect_account payload new_id (Some d) = (Ok r, Some d') /\
    In a (accounts d') /\ a !! "platform" = Some (VStr p) /\
    r !! "platform" = Some (VStr p).
Proof.
  intros Hreach Hf Hp Hspell.
  assert (Hplat : platform_of payload = p).
  { unfold platform_of. rewrite str_or_empty.
    apply spelling_lower; [exact Hspell | now apply lower_platform]. }
  assert (Hmem : mem (platform_of payload) platforms = true)
    by (rewrite Hplat; now apply mem_In).
  destruct (connect_account_succeeds d payload new_id
              (reachable_invariant _ _ Hreach) Hf Hmem)
    as (c' & a & v & d' & Hrun & Hup & Hv & Hc & _).
  destruct (upserted_connected _ _ _ _ _ Hup) as [a0 ->].
  eexists _, _, d'. split; [exact Hrun|].
  unfold accounts. rewrite collection_coll, Hc. split.
  - now apply (upserted_In _ _ _ _ _ Hup).
  - lookups. rewrite connected_platform, Hplat. auto.
Qed.

(** C6.  With the store configured, [connect_account] answers 400 when the
    platform, in lower case, is none of youtube, tiktok, instagram, and
    touches nothing.  When it succeeds the platform is one of them, and the
    account of that platform has been upserted: the first account the filter
    finds is updated in place, or a new one is added after the others; it has
    [connected] true and the given [account_name], the title-cased platform
    when none is given; the response is that document with [_id] shown as
    [id]. *)
Theorem connect_account_validates (d : Database)
    (payload : ConnectAccountRequest.t) (new_id : ObjectId) :
  let p := lower (ConnectAccountRequest.platform payload) in
  (~ In p ["youtube"; "tiktok"; "instagram"] ->
   connect_account payload new_id (Some d) =
     (Raise (HTTPException 400 "Invalid platform"), Some d)) /\
  (forall r h', connect_account payload new_id (Some d) = (Ok r, h') ->
     In p ["youtube"; "tiktok"; "instagram"] /\
     exists a d',
       h' = Some d' /\
       a !! "platform" = Some (VStr p) /\
       a !! "connected" = Some (VBool true) /\
       a !! "account_name" =
         Some (VStr (opt_or (ConnectAccountRequest.account_name payload) (title p))) /\
       (ConnectAccountRequest.account_name payload = None ->
        a !! "account_name" = Some (VStr (title p))) /\
       ((exists l1 a0 l2,
           accounts d = l1 ++ a0 :: l2 /\ accounts d' = l1 ++ a :: l2 /\
           List.find (matches [("platform", VStr p)]) (accounts d) = Some a0 /\
           a !! "_id" = a0 !! "_id") \/
        (List.find (matches [("platform", VStr p)]) (accounts d) = None /\
         accounts d' = accounts d ++ [a] /\
         a !! "_id" = Some (VOid new_id))) /\
       r = exposed a).
Proof.
  cbn zeta. rewrite <- (str_or_empty (ConnectAccountRequest.platform payload)).
  fold (platform_of payload). fold platforms. split.
  - intros Hnot.
    assert (Hmem : mem (platform_of payload) platforms = false).
    { destruct (mem _ _) eqn:Hm; [|reflexivity]. now apply mem_In in Hm. }
    unfold connect_account, try_except, connect_account_try, bind, db_is_None.
    fold (platform_of payload). now rewrite Hmem.
  - intros r h' Hrun.
    pose proof (connect_account_spec False _ payload new_id d (st_start d)) as Hs.
    rewrite Hrun in Hs. destruct h' as [d'|]; [|contradiction].
    destruct Hs as [c' a v d'' Hmem Hup Hv [Hc _]].
    split; [now apply mem_In|]. exists a, d''. split; [reflexivity|].
    destruct (upserted_connected _ _ _ _ _ Hup) as [a0' Ha].
    split; [rewrite Ha; apply connected_platform|].
    split; [rewrite Ha; apply connected_flag|].
    split; [rewrite Ha; apply connected_name|].
    split; [intros Hnone; rewrite Ha, connected_name, Hnone; reflexivity|].
    split.
    + unfold accounts. rewrite !collection_coll, Hc.
      destruct Hup as [l1 a0 l2 Hsplit Hl1 Ha0 | Hall]; rewrite coll_insert_eq.
      * left. exists l1, a0, l2.
        split; [exact Hsplit|]. split; [reflexivity|]. split.
        -- rewrite Hsplit. now apply find_middle.
        -- now apply connected_other.
      * right. split; [now apply find_none_Forall|]. split; [reflexivity|].
        rewrite inserted_account_eq, connected_other by discriminate.
        now lookups.
    + symmetry. now apply exposed_pop.
Qed.

(** C4, as the code has it.  In every reachable state no two accounts have
    the same platform.  After two successive requests for the same known
    platform (no round trip failing), the store has one account of that
    platform, and its [account_name] is the one of the second request when
    that is given and not empty, the title-cased platform otherwise. *)
Theorem one_account_per_platform `{External} (fs : list (option string))
    (d : Database) :
  reachable fs d ->
  NoDup (map (fun a : doc => a !! "platform") (accounts d)) /\
  forall first second id1 id2 p,
    faults d = [] ->
    In p ["youtube"; "tiktok"; "instagram"] ->
    lower (ConnectAccountRequest.platform first) = p ->
    lower (ConnectAccountRequest.platform second) = p ->
    exists r a d2,
      connect_account second id2 (connect_account first id1 (Some d)).2
        = (Ok r, Some d2) /\
      List.filter (matches [("platform", VStr p)]) (accounts d2) = [a] /\
      r = exposed a /\
      a !! "account_name" =
        Some (VStr (opt_or (ConnectAccountRequest.account_name second) (title p))) /\
      (forall s, ConnectAccountRequest.account_name second = Some s ->
                 s <> "" -> a !! "account_name" = Some (VStr s)).
Proof.
  intros Hreach. pose proof (reachable_invariant _ _ Hreach) as Hinv.
  split; [apply Hinv|].
  intros first second id1 id2 p Hf Hp Hfirst Hsecond.
  assert (Hp1 : platform_of first = p)
    by (unfold platform_of; now rewrite str_or_empty).
  assert (Hp2 : platform_of second = p)
    by (unfold platform_of; now rewrite str_or_empty).
  assert (Hmem : mem p platforms = true) by now apply mem_In.
  destruct (connect_account_succeeds d first id1 Hinv Hf)
    as (c1 & a1 & v1 & d1 & Hrun1 & _ & _ & Hc1 & Hf1 & Hinv1);
    [now rewrite Hp1|].
  rewrite Hrun1. cbn [snd]. rewrite <- Hc1 in Hinv1.
  destruct (connect_account_succeeds d1 second id2 Hinv1 Hf1)
    as (c2 & a2 & v2 & d2 & Hrun2 & Hup2 & Hv2 & Hc2 & _ & Hinv2);
    [now rewrite Hp2|].
  exists (exposed a2), a2, d2.
  assert (Hname : a2 !! "account_name" =
            Some (VStr (opt_or (ConnectAccountRequest.account_name second) (title p)))).
  { destruct (upserted_connected _ _ _ _ _ Hup2) as [a0 ->].
    now rewrite connected_name, Hp2. }
  split; [|split; [|split; [reflexivity|split; [exact Hname|]]]].
  - rewrite Hrun2. now rewrite (exposed_pop _ _ Hv2).
  - unfold accounts. rewrite collection_coll, Hc2.
    destruct Hinv2 as (_ & Hacc & Hnodup).
    apply filter_single; auto.
    + now apply (upserted_In _ _ _ _ _ Hup2).
    + destruct (upserted_connected _ _ _ _ _ Hup2) as [a0 ->].
      now rewrite connected_platform, Hp2.
  - intros s Hs Hne. now rewrite Hname, Hs, opt_or_nonempty.
Qed.

End ConnectAccount.

(* ===================================================================== *)
(** * Theorems: creating and listing, errors, and the life of a job *)
(* ===================================================================== *)

Section Api.
Context `{External}.

(** C2.  [create_job] with no field set, on a store whose round trip goes
    through: the response is the assigned identifier with status [queued],
    and the record added to the jobs has the defaults. *)
Theorem create_job_defaults (c : gmap string (list doc)) (new_id : ObjectId) :
  exists stored,
    create_job CreateJobRequest.empty new_id (Some (mkDatabase c [])) =
      (Ok {[ "id" := VStr (hexlify new_id); "status" := VStr "queued" ]},
       Some (mkDatabase (<["videojob" := coll c "videojob" ++ [stored]]> c) [])) /\
    stored !! "_id" = Some (VOid new_id) /\
    stored !! "voice" = Some (VStr "female-soft") /\
    stored !! "aspect_ratio" = Some (VStr "9:16") /\
    stored !! "include_captions" = Some (VBool true) /\
    stored !! "include_broll" = Some (VBool true) /\
    stored !! "autopost_youtube" = Some (VBool false) /\
    stored !! "autopost_tiktok" = Some (VBool false) /\
    stored !! "autopost_instagram" = Some (VBool false) /\
    stored !! "status" = Some (VStr "queued").
Proof.
  pose (job := VideoJob.mk None None None None "female-soft" "9:16" true true
                 false false false "queued" None None []).
  exists (<["_id" := VOid new_id]> (VideoJob.to_doc job)).
  split; [reflexivity|].
  destruct (stored_job_lookup job new_id)
    as (Hid & Hv & Ha & Hc & Hb & Hy & Ht & Hi & Hs & _).
  repeat split; assumption.
Qed.

Lemma exposed_stored (s : doc) :
  has_id s ->
  exposed s !! "_id" = None /\
  exists o, exposed s !! "id" = Some (VStr (hexlify o)).
Proof.
  intros [o Ho]. unfold exposed. rewrite Ho. split; [now lookups|].
  exists o. now lookups.
Qed.

Lemma listing_Ok_inv (name : string) (limit : nat) (d : Database)
    (items : list doc) (h' : handle) :
  try_except
    (let* docs := get_documents name limit in
     let out := fold_left expose_id docs [] in
     ret out)
    internal_error (Some d) = (Ok items, h') ->
  items = map exposed (take limit (collection d name)).
Proof.
  intros Hrun.
  pose proof (list_spec False _ name limit d (st_start d)) as Hs.
  rewrite Hrun in Hs. destruct h' as [d'|]; [|contradiction]. apply Hs.
Qed.

Lemma listing_runs (name : string) (limit : nat) (d : Database) :
  faults d = [] ->
  try_except
    (let* docs := get_documents name limit in
     let out := fold_left expose_id docs [] in
     ret out)
    internal_error (Some d) =
  (Ok (map exposed (take limit (collection d name))), Some d).
Proof.
  intros Hf. unfold try_except, bind, get_documents, bind, db_is_None, round_trip.
  rewrite Hf. cbn. now rewrite fold_expose_id.
Qed.

(** C7.  From a reachable state, [list_jobs] returns at most 100 records and
    [list_accounts] at most 50: the first documents of the collection, each
    without [_id] and with [id], the string of its identifier.  Both return
    when the round trip goes through. *)
Theorem listings_limited_and_exposed (fs : list (option string)) (d : Database) :
  reachable fs d ->
  (forall items h', list_jobs (Some d) = (Ok items, h') ->
     (length items <= 100)%nat /\
     items = map exposed (take 100 (jobs d)) /\
     Forall (fun r : doc => r !! "_id" = None /\
               exists o, r !! "id" = Some (VStr (hexlify o))) items) /\
  (forall items h', list_accounts (Some d) = (Ok items, h') ->
     (length items <= 50)%nat /\
     items = map exposed (take 50 (accounts d)) /\
     Forall (fun r : doc => r !! "_id" = None /\
               exists o, r !! "id" = Some (VStr (hexlify o))) items) /\
  (faults d = [] ->
     exists jobs accounts,
       list_jobs (Some d) = (Ok jobs, Some d) /\
       list_accounts (Some d) = (Ok accounts, Some d)).
Proof.
  intros Hreach.
  pose proof (reachable_invariant _ _ Hreach) as (Hjobs & Haccs & _).
  assert (Hitems : forall limit l,
            Forall has_id l ->
            (length (map exposed (take limit l)) <= limit)%nat /\
            Forall (fun r : doc => r !! "_id" = None /\
                      exists o, r !! "id" = Some (VStr (hexlify o)))
                   (map exposed (take limit l))).
  { intros limit l Hl. split.
    - rewrite length_map, length_take. lia.
    - apply Forall_map. apply Forall_take.
      eapply Forall_impl; [exact Hl|]. intros s Hs. now apply exposed_stored. }
  split; [|split].
  - intros items h' Hrun. apply listing_Ok_inv in Hrun. subst items.
    destruct (Hitems 100%nat (jobs d)) as [Hlen Hall].
    { eapply Forall_impl; [exact Hjobs|]. now intros s [Hs _]. }
    auto.
  - intros items h' Hrun. apply listing_Ok_inv in Hrun. subst items.
    destruct (Hitems 50%nat (accounts d)) as [Hlen Hall].
    { eapply Forall_impl; [exact Haccs|]. now intros s [Hs _]. }
    auto.
  - intros Hf. eexists _, _. split; now apply listing_runs.
Qed.

(** ** Errors *)

Lemma surfaces_internal {A} (body : M A) :
  (forall h e h', body h = (Raise e, h') -> is_HTTPException e = false) ->
  surfaces body (try_except body internal_error).
Proof.
  intros Hbody h. unfold try_except.
  destruct (body h) as [[a|e] h'] eqn:Hrun; [reflexivity|].
  now rewrite (Hbody _ _ _ Hrun).
Qed.

Lemma surfaces_reraise {A} (body : M A) :
  surfaces body (try_except body reraise_or_internal_error).
Proof.
  intros h. unfold try_except, reraise_or_internal_error, internal_error.
  destruct (body h) as [[a|e] h']; [reflexivity|].
  now destruct (is_HTTPException e).
Qed.

Lemma listing_try_raises (name : string) (limit : nat) (h h' : handle) (e : exn) :
  (let* docs := get_documents name limit in
   let out := fold_left expose_id docs [] in
   ret out) h = (Raise e, h') ->
  is_HTTPException e = false.
Proof.
  destruct h as [d|]; [|now intros [= <- _]]. intros Hrun.
  pose proof (list_try_spec False _ name limit d (st_start d)) as Hs.
  rewrite Hrun in Hs. destruct h' as [d'|]; [|contradiction].
  now destruct Hs as (msg & -> & _).
Qed.

Lemma create_job_try_raises payload (new_id : ObjectId) (h h' : handle) (e : exn) :
  create_job_try payload new_id h = (Raise e, h') -> is_HTTPException e = false.
Proof.
  destruct h as [d|].
  - intros Hrun.
    pose proof (create_job_try_spec False _ payload new_id d (st_start d)) as Hs.
    rewrite Hrun in Hs. destruct h' as [d'|]; [|contradiction].
    destruct Hs as [e1 d'' Hjob _ | job msg d'' _ _ _]; [|reflexivity].
    unfold job_of, VideoJob.new in Hjob.
    destruct (_ ++ _); [discriminate | now injection Hjob as <-].
  - unfold create_job_try, bind, lift.
    destruct (job_of payload) as [job|e1] eqn:Hjob.
    + now intros [= <- _].
    + intros [= <- _]. unfold job_of, VideoJob.new in Hjob.
      destruct (_ ++ _); [discriminate | now injection Hjob as <-].
Qed.

Lemma process_job_try_deliberate (job_id : string) (h h' : handle) (e : exn) :
  process_job_try job_id h = (Raise e, h') -> is_HTTPException e = true ->
  e = HTTPException 404 "Job not found" \/
  e = HTTPException 500 "Database not available".
Proof.
  destruct h as [d|]; [|intros [= <- _]; auto]. intros Hrun He.
  pose proof (process_job_try_spec False _ job_id d (st_start d)) as Hs.
  rewrite Hrun in Hs. destruct h' as [d'|]; [|contradiction].
  destruct Hs; [discriminate | auto | discriminate].
Qed.

Lemma connect_account_try_deliberate payload (new_id : ObjectId)
    (h h' : handle) (e : exn) :
  connect_account_try payload new_id h = (Raise e, h') ->
  is_HTTPException e = true ->
  e = HTTPException 400 "Invalid platform" \/
  e = HTTPException 500 "Database not available".
Proof.
  destruct h as [d|]; [|intros [= <- _]; auto]. intros Hrun He.
  pose proof (connect_account_try_spec False _ payload new_id d (st_start d)) as Hs.
  rewrite Hrun in Hs. destruct h' as [d'|]; [|contradiction].
  destruct Hs; [auto | discriminate | discriminate].
Qed.

(** A round trip that fails with [msg] ends each request with a 500 whose
    detail is [msg]. *)
Lemma store_failure_surfaces (d : Database) (msg : string)
    (fs : list (option string)) :
  faults d = Some msg :: fs ->
  let failed {A} : result A * handle :=
    (Raise (HTTPException 500 msg), Some (mkDatabase (collections d) fs)) in
  list_jobs (Some d) = failed /\
  list_accounts (Some d) = failed /\
  (forall payload new_id job, job_of payload = Ok job ->
     create_job payload new_id (Some d) = failed) /\
  (forall job_id oid, ObjectId_of_str job_id = Ok oid ->
     process_job job_id (Some d) = failed) /\
  (forall payload new_id, mem (platform_of payload) platforms = true ->
     connect_account payload new_id (Some d) = failed).
Proof.
  intros Hf. cbn zeta. repeat split.
  - unfold list_jobs, try_except, list_jobs_try, bind, get_documents, bind,
      db_is_None, round_trip. now rewrite Hf.
  - unfold list_accounts, try_except, list_accounts_try, bind, get_documents,
      bind, db_is_None, round_trip. now rewrite Hf.
  - intros payload new_id job Hjob.
    unfold create_job, try_except, create_job_try, bind, lift. rewrite Hjob.
    unfold create_document, bind, db_is_None, round_trip. now rewrite Hf.
  - intros job_id oid Hoid.
    unfold process_job, try_except, process_job_try, bind, lift, db_is_None.
    rewrite Hoid. unfold find_one, bind, round_trip. now rewrite Hf.
  - intros payload new_id Hmem.
    unfold connect_account, try_except, connect_account_try, bind, db_is_None.
    fold (platform_of payload). rewrite Hmem. cbn [negb].
    unfold update_one, bind, round_trip. now rewrite Hf.
Qed.

(** C8.  Each of the five handlers surfaces what its [try] block does: a
    result is returned, an exception that is not an [HTTPException] becomes a
    500 whose detail is its [str], and nothing is retried or swallowed.  The
    [try] blocks of the listings and of [create_job] raise no
    [HTTPException]; those of [process_job] and [connect_account] raise only
    the 404, the 400 and the 500 of the missing store handle, which pass as
    they are.  A failing round trip to the store and a missing handle end
    every request with a 500. *)
Theorem exceptions_surface_as_500 :
  (surfaces list_jobs_try list_jobs /\
   surfaces list_accounts_try list_accounts /\
   (forall payload new_id,
      surfaces (create_job_try payload new_id) (create_job payload new_id)) /\
   (forall job_id, surfaces (process_job_try job_id) (process_job job_id)) /\
   (forall payload new_id,
      surfaces (connect_account_try payload new_id)
               (connect_account payload new_id))) /\
  (forall h e h',
     (list_jobs_try h = (Raise e, h') \/ list_accounts_try h = (Raise e, h') \/
      exists payload new_id, create_job_try payload new_id h = (Raise e, h')) ->
     is_HTTPException e = false) /\
  (forall h e h',
     ((exists job_id, process_job_try job_id h = (Raise e, h')) \/
      exists payload new_id, connect_account_try payload new_id h = (Raise e, h')) ->
     is_HTTPException e = true ->
     e = HTTPException 404 "Job not found" \/
     e = HTTPException 400 "Invalid platform" \/
     e = HTTPException 500 "Database not available") /\
  (forall d msg fs, faults d = Some msg :: fs ->
     let failed {A} : result A * handle :=
       (Raise (HTTPException 500 msg), Some (mkDatabase (collections d) fs)) in
     list_jobs (Some d) = failed /\
     list_accounts (Some d) = failed /\
     (forall payload new_id job, job_of payload = Ok job ->
        create_job payload new_id (Some d) = failed) /\
     (forall job_id oid, ObjectId_of_str job_id = Ok oid ->
        process_job job_id (Some d) = failed) /\
     (forall payload new_id, mem (platform_of payload) platforms = true ->
        connect_account payload new_id (Some d) = failed)) /\
  (list_jobs None = (Raise (HTTPException 500 unavailable), None) /\
   list_accounts None = (Raise (HTTPException 500 unavailable), None) /\
   (forall payload new_id job, job_of payload = Ok job ->
      create_job payload new_id None =
        (Raise (HTTPException 500 unavailable), None)) /\
   (forall job_id,
      process_job job_id None =
        (Raise (HTTPException 500 "Database not available"), None)) /\
   (forall payload new_id,
      connect_account payload new_id None =
        (Raise (HTTPException 500 "Database not available"), None))).
Proof.
  split; [|split; [|split; [|split]]].
  - split; [|split; [|split; [|split]]].
    + apply surfaces_internal. intros h e h'. apply listing_try_raises.
    + apply surfaces_internal. intros h e h'. apply listing_try_raises.
    + intros payload new_id. apply surfaces_internal. intros h e h'.
      apply create_job_try_raises.
    + intros job_id. apply surfaces_reraise.
    + intros payload new_id. apply surfaces_reraise.
  - intros h e h' [Hrun|[Hrun|(payload & new_id & Hrun)]].
    + exact (listing_try_raises _ _ _ _ _ Hrun).
    + exact (listing_try_raises _ _ _ _ _ Hrun).
    + exact (create_job_try_raises _ _ _ _ _ Hrun).
  - intros h e h' [(job_id & Hrun)|(payload & new_id & Hrun)] He.
    + destruct (process_job_try_deliberate _ _ _ _ Hrun He); auto.
    + destruct (connect_account_try_deliberate _ _ _ _ _ Hrun He); auto.
  - exact store_failure_surfaces.
  - repeat split.
    intros payload new_id job Hjob.
    unfold create_job, try_except, create_job_try, bind, lift. now rewrite Hjob.
Qed.

(** ** The life of a job *)


End Api.

(* ===================================================================== *)
(** * The theorems at concrete requests *)
(* ===================================================================== *)

#[local] Existing Instance sample_external.

Example sample_id_str : str (VOid sample_id) = "00010203040506a708090aff".
Proof. reflexivity. Qed.

Example sample_process_job :
  exists r d',
    process_job "00010203040506a708090aff" (Some sample_store) = (Ok r, Some d') /\
    r !! "platforms_posted" = Some (VList [VStr "youtube"; VStr "instagram"]) /\
    r !! "id" = Some (VStr "00010203040506a708090aff").
Proof. eexists _, _. split; [vm_compute; reflexivity|]. split; reflexivity. Qed.

Lemma process_job_completes_witness :
  ObjectId_of_str "00010203040506a708090aff" = Ok sample_id /\
  List.find (matches (job_filter sample_id)) (jobs sample_store) = Some sample_job /\
  (faults sample_store = [] ->
   exists r d',
     process_job "00010203040506a708090aff" (Some sample_store) = (Ok r, Some d')) /\
  (forall r h',
     process_job "00010203040506a708090aff" (Some sample_store) = (Ok r, h') ->
     r !! "status" = Some (VStr "completed") /\
     r !! "result_video_url" =
       Some (VStr "https://samplelib.com/lib/preview/mp4/sample-5s.mp4") /\
     r !! "platforms_posted" =
       Some (VList (map VStr
         (List.filter (fun p => truthy (get sample_job ("autopost_" +:+ p)))
            ["youtube"; "tiktok"; "instagram"])))).
Proof.
  split; [reflexivity|]. split; [vm_compute; reflexivity|].
  apply (process_job_completes sample_store "00010203040506a708090aff"
           sample_id sample_job); [reflexivity | vm_compute; reflexivity].
Defined.


Lemma process_job_unknown_id_witness :
  faults sample_store = [] /\
  (forall oid, ObjectId_of_str "0123456789abcdef01234567" = Ok oid ->
     List.find (matches (job_filter oid)) (jobs sample_store) = None) /\
  process_job "0123456789abcdef01234567" (Some sample_store) =
    (Raise (HTTPException 404 "Job not found"), Some sample_store).
Proof.
  assert (Hnone : forall oid,
            ObjectId_of_str "0123456789abcdef01234567" = Ok oid ->
            List.find (matches (job_filter oid)) (jobs sample_store) = None).
  { intros oid Hoid. vm_compute in Hoid. injection Hoid as <-.
    vm_compute. reflexivity. }
  split; [reflexivity|]. split; [exact Hnone|].
  apply (process_job_unknown_id sample_store "0123456789abcdef01234567");
    [reflexivity | exact Hnone].
Defined.

(** C3 as stated fails: an identifier that is not 24 hexadecimal characters
    identifies no job, and the answer is 500, not 404. *)
Lemma process_job_malformed_id_is_500 :
  (forall oid, ObjectId_of_str "not-a-job-id" <> Ok oid) /\
  process_job "not-a-job-id" (Some empty_store) =
    (Raise (HTTPException 500
       "'not-a-job-id' is not a valid ObjectId, it must be a 12-byte input or a 24-character hex string"),
     Some empty_store) /\
  ~ exists detail h',
      process_job "not-a-job-id" (Some empty_store) =
        (Raise (HTTPException 404 detail), h').
Proof.
  split; [intros oid Hoid; vm_compute in Hoid; discriminate|].
  split; [vm_compute; reflexivity|].
  intros (detail & h' & Hrun). vm_compute in Hrun. discriminate.
Qed.

Lemma one_account_per_platform_witness :
  reachable [] empty_store /\
  NoDup (map (fun a : doc => a !! "platform") (accounts empty_store)) /\
  exists r a d2,
    connect_account (ConnectAccountRequest.mk "youtube" (Some "Second")) sample_id
      (connect_account (ConnectAccountRequest.mk "YouTube" (Some "First"))
         sample_id (Some empty_store)).2
      = (Ok r, Some d2) /\
    List.filter (matches [("platform", VStr "youtube")]) (accounts d2) = [a] /\
    r = exposed a /\
    a !! "account_name" = Some (VStr "Second").
Proof.
  pose proof (@one_account_per_platform sample_external [] empty_store
                (reach_fresh [])) as [Hnodup Htwice].
  split; [apply reach_fresh|]. split; [exact Hnodup|].
  destruct (Htwice (ConnectAccountRequest.mk "YouTube" (Some "First"))
              (ConnectAccountRequest.mk "youtube" (Some "Second"))
              sample_id sample_id "youtube")
    as (r & a & d2 & Hrun & Hone & Hr & _ & Hname);
    [reflexivity | vm_compute; tauto | reflexivity | reflexivity |].
  exists r, a, d2.
  split; [exact Hrun|]. split; [exact Hone|]. split; [exact Hr|].
  apply (Hname "Second"); [reflexivity | discriminate].
Defined.

(** C4 as stated fails: an [account_name] that is given but empty does not
    replace the first one; the title-cased platform is stored instead. *)
Lemma connect_account_empty_name_is_replaced :
  exists r d2,
    connect_account (ConnectAccountRequest.mk "youtube" (Some "")) sample_id
      (connect_account (ConnectAccountRequest.mk "youtube" (Some "My channel"))
         sample_id (Some empty_store)).2
      = (Ok r, Some d2) /\
    r !! "account_name" = Some (VStr "Youtube") /\
    r !! "account_name" <> Some (VStr "") /\
    Forall (fun a : doc => a !! "account_name" = Some (VStr "Youtube"))
      (accounts d2).
Proof.
  eexists _, _. split; [vm_compute; reflexivity|].
  split; [reflexivity|]. split; [discriminate|].
  repeat constructor.
Qed.

Lemma created_store_reachable : reachable [] created_store.
Proof.
  apply (reach_create_job [] empty_store CreateJobRequest.empty sample_id
           (create_job CreateJobRequest.empty sample_id (Some empty_store)).1
           created_store (reach_fresh [])).
  vm_compute. reflexivity.
Defined.


Lemma connect_account_validates_witness :
  connect_account (ConnectAccountRequest.mk "twitter" None) sample_id
    (Some empty_store) =
    (Raise (HTTPException 400 "Invalid platform"), Some empty_store) /\
  exists r h',
    connect_account (ConnectAccountRequest.mk "tiktok" None) sample_id
      (Some empty_store) = (Ok r, h') /\
    In "tiktok" ["youtube"; "tiktok"; "instagram"] /\
    exists a d',
      h' = Some d' /\
      a !! "platform" = Some (VStr "tiktok") /\
      a !! "connected" = Some (VBool true) /\
      a !! "account_name" = Some (VStr "Tiktok") /\
      r = exposed a.
Proof.
  split.
  - apply (proj1 (connect_account_validates empty_store
                    (ConnectAccountRequest.mk "twitter" None) sample_id)).
    vm_compute. intuition discriminate.
  - pose proof (proj2 (connect_account_validates empty_store
                         (ConnectAccountRequest.mk "tiktok" None) sample_id))
      as Hok.
    cbn zeta in Hok.
    destruct (connect_account (ConnectAccountRequest.mk "tiktok" None) sample_id
                (Some empty_store)) as [[r|e] h'] eqn:Hrun;
      [|vm_compute in Hrun; discriminate].
    destruct (Hok r h' eq_refl)
      as (Hin & a & d' & Hd' & Hplat & Hconn & _ & Hname & _ & Hr).
    exists r, h'. split; [reflexivity|]. split; [exact Hin|].
    exists a, d'. split; [exact Hd'|]. split; [exact Hplat|].
    split; [exact Hconn|]. split; [exact (Hname eq_refl) | exact Hr].
Defined.

Lemma listings_limited_and_exposed_witness :
  reachable [] created_store /\
  faults created_store = [] /\
  exists items accounts,
    list_jobs (Some created_store) = (Ok items, Some created_store) /\
    list_accounts (Some created_store) = (Ok accounts, Some created_store) /\
    (length items <= 100)%nat /\ (length accounts <= 50)%nat /\
    Forall (fun r : doc => r !! "_id" = None /\
              exists o, r !! "id" = Some (VStr (hexlify o))) items.
Proof.
  pose proof (@listings_limited_and_exposed sample_external [] created_store
                created_store_reachable) as (Hjobs & Haccounts & Hruns).
  split; [exact created_store_reachable|]. split; [reflexivity|].
  destruct (Hruns eq_refl) as (items & accounts & Hrun1 & Hrun2).
  destruct (Hjobs items _ Hrun1) as (Hlen1 & _ & Hall).
  destruct (Haccounts accounts _ Hrun2) as (Hlen2 & _).
  exists items, accounts. repeat split; assumption.
Defined.

Lemma exceptions_surface_as_500_witness :
  let down := mkDatabase ∅ [Some "connection refused"] in
  faults down = [Some "connection refused"] /\
  list_jobs (Some down) =
    (Raise (HTTPException 500 "connection refused"), Some empty_store) /\
  process_job "00010203040506a708090aff" (Some down) =
    (Raise (HTTPException 500 "connection refused"), Some empty_store) /\
  connect_account (ConnectAccountRequest.mk "youtube" None) sample_id (Some down) =
    (Raise (HTTPException 500 "connection refused"), Some empty_store).
Proof.
  cbn zeta.
  destruct (@exceptions_surface_as_500 sample_external)
    as (_ & _ & _ & Hstore & _).
  destruct (Hstore (mkDatabase ∅ [Some "connection refused"])
              "connection refused" [] eq_refl)
    as (Hjobs & _ & _ & Hprocess & Hconnect).
  split; [reflexivity|]. split; [exact Hjobs|]. split.
  - apply (Hprocess "00010203040506a708090aff" sample_id). reflexivity.
  - apply (Hconnect (ConnectAccountRequest.mk "youtube" None) sample_id).
    reflexivity.
Defined.

Lemma connect_account_ignores_case_witness :
  reachable [] empty_store /\ faults empty_store = [] /\
  In "youtube" platforms /\ spelling "YouTube" "youtube" /\
  exists r a d',
    connect_account (ConnectAccountRequest.mk "YouTube" None) sample_id
      (Some empty_store) = (Ok r, Some d') /\
    In a (accounts d') /\ a !! "platform" = Some (VStr "youtube") /\
    r !! "platform" = Some (VStr "youtube").
Proof.
  assert (Hspell : spelling "YouTube" "youtube").
  { apply (spelling_upper "y"); [reflexivity|].
    do 2 apply spelling_same.
    apply (spelling_upper "t"); [reflexivity|].
    do 3 apply spelling_same. apply spelling_nil. }
  split; [apply reach_fresh|]. split; [reflexivity|].
  split; [vm_compute; tauto|]. split; [exact Hspell|].
  apply (@connect_account_ignores_case sample_external [] empty_store
           (ConnectAccountRequest.mk "YouTube" None) sample_id "youtube");
    [apply reach_fresh | reflexivity | vm_compute; tauto | exact Hspell].
Defined.
